(** * Naive Bayes spam filter (R notebook "Building a Spam Filter using
    Naive Bayes in R"): shallow embedding of the cleaning pipeline, the
    vocabularies, the word-count table, [classify], the accuracy
    computation and the alpha-tuning loop.

    Modelling choices:
    - a character is a code point of the Latin-1 range (0..255), i.e. an
      [ascii] value read as an 8-bit code point; this range contains the
      three special characters the notebook strips (U+0092, U+0094, U+0096);
    - R's doubles are modelled as exact rationals [Q];
    - an R character vector of words is a [list text], text being
      [list ascii]. *)

From Stdlib Require Import Ascii String List Bool Arith Lia QArith Qround Qfield Lqa.
Import ListNotations.

(* ================================================================= *)
(** ** Characters: the classes used by the regular expressions *)

Definition code (c : ascii) : nat := nat_of_ascii c.

(** [str_to_lower] on the Latin-1 range: A-Z and the Latin-1 capitals
    U+00C0..U+00DE (except U+00D7, the multiplication sign) are shifted
    by 32. *)
Definition to_lower (c : ascii) : ascii :=
  let n := code c in
  if ((65 <=? n) && (n <=? 90))
     || ((192 <=? n) && (n <=? 222) && negb (n =? 215))
  then ascii_of_nat (n + 32) else c.

(** ICU [\s] (White_Space) on the Latin-1 range. *)
Definition is_space (c : ascii) : bool :=
  let n := code c in
  ((9 <=? n) && (n <=? 13)) || (n =? 32) || (n =? 133) || (n =? 160).

(** ICU [[:punct:]] = general category P on the Latin-1 range (symbols
    such as $ + < = > ^ ` | ~ are category S and are kept). *)
Definition is_punct (c : ascii) : bool :=
  let n := code c in
  ((33 <=? n) && (n <=? 35)) || ((37 <=? n) && (n <=? 42))
  || ((44 <=? n) && (n <=? 47)) || (n =? 58) || (n =? 59)
  || (n =? 63) || (n =? 64) || ((91 <=? n) && (n <=? 93))
  || (n =? 95) || (n =? 123) || (n =? 125)
  || (n =? 161) || (n =? 167) || (n =? 171) || (n =? 182)
  || (n =? 183) || (n =? 187) || (n =? 191).

(** The class ["[\u0094\u0092\u0096\n\t]"]. *)
Definition is_special (c : ascii) : bool :=
  let n := code c in
  (n =? 148) || (n =? 146) || (n =? 150) || (n =? 10) || (n =? 9).

(** ICU [[:digit:]] = general category Nd on the Latin-1 range. *)
Definition is_digit (c : ascii) : bool :=
  let n := code c in (48 <=? n) && (n <=? 57).

Definition text := list ascii.

Definition space : ascii := " "%char.

(* ================================================================= *)
(** ** The cleaning pipeline *)

(** [str_squish]: runs of whitespace become one space, leading and
    trailing whitespace is dropped.  Written as: split into the maximal
    non-whitespace runs, then join them with single spaces. *)
Fixpoint ws_runs (cur : text) (l : text) : list text :=
  match l with
  | [] => match cur with [] => [] | _ => [rev cur] end
  | c :: r =>
      if is_space c then
        match cur with
        | [] => ws_runs [] r
        | _ => rev cur :: ws_runs [] r
        end
      else ws_runs (c :: cur) r
  end.

Fixpoint join_space (ws : list text) : text :=
  match ws with
  | [] => []
  | [w] => w
  | w :: ws' => w ++ space :: join_space ws'
  end.

Definition str_squish (l : text) : text := join_space (ws_runs [] l).

(** [str_replace_all(x, "[class]", "")]. *)
Definition remove_class (f : ascii -> bool) (l : text) : text :=
  filter (fun c => negb (f c)) l.

(** The pipeline of [tidy_train] and of [classify]:
    [str_to_lower %>% str_squish %>% punct %>% specials %>% digits]. *)
Definition normalize (s : text) : text :=
  remove_class is_digit
    (remove_class is_special
       (remove_class is_punct (str_squish (map to_lower s)))).

(** [str_split(m, " ")[[1]]]: split at every single space; empty pieces
    are kept, and the empty string gives one empty piece. *)
Fixpoint str_split (l : text) : list text :=
  match l with
  | [] => [[]]
  | c :: r =>
      if Ascii.eqb c space then [] :: str_split r
      else match str_split r with
           | [] => [[c]]
           | w :: ws => (c :: w) :: ws
           end
  end.

Definition T (s : string) : text := list_ascii_of_string s.

(* ================================================================= *)
(** ** Word vectors: equality, membership, [unique] *)

Definition tok_eqb (a b : text) : bool :=
  if list_eq_dec ascii_dec a b then true else false.

(** [w %in% ws] *)
Definition mem (w : text) (ws : list text) : bool := existsb (tok_eqb w) ws.

(** [unique]: keeps the first occurrence of each word, in order. *)
Fixpoint unique_aux (seen : list text) (l : list text) : list text :=
  match l with
  | [] => []
  | x :: r => if mem x seen then unique_aux seen r else x :: unique_aux (x :: seen) r
  end.

Definition unique (l : list text) : list text := unique_aux [] l.

(** [setdiff(x, y)] = [unique(x[!(x %in% y)])]. *)
Definition setdiff (x y : list text) : list text :=
  unique (filter (fun w => negb (mem w y)) x).

(** [(ws == w) %>% sum] *)
Definition count_eq (ws : list text) (w : text) : nat :=
  length (filter (tok_eqb w) ws).

Fixpoint sum_nat (l : list nat) : nat :=
  match l with [] => 0 | x :: r => x + sum_nat r end.

(* ================================================================= *)
(** ** Training data *)

Inductive label := Ham | Spam.

Definition label_eqb (a b : label) : bool :=
  match a, b with Ham, Ham | Spam, Spam => true | _, _ => false end.

(** A row of the data set: [label], [sms]. *)
Definition message := (label * text)%type.

Definition Q_of_nat (n : nat) : Q := inject_Z (Z.of_nat n).

(** [tidy_train]: the training set with cleaned [sms]. *)
Definition tidy_train (tr : list message) : list message :=
  map (fun m => (fst m, normalize (snd m))) tr.

(** The loop [for (m in messages) vocabulary <- c(vocabulary, words)]
    followed by [unique]. *)
Definition build_voc (mes : list text) : list text :=
  unique (concat (map str_split mes)).

Definition vocabulary (tr : list message) : list text :=
  build_voc (map snd (tidy_train tr)).

(** [tidy_train %>% filter(label == c) %>% pull(sms)] *)
Definition class_mes (c : label) (tr : list message) : list text :=
  map snd (filter (fun m => label_eqb (fst m) c) (tidy_train tr)).

Definition spam_mes tr := class_mes Spam tr.
Definition ham_mes tr := class_mes Ham tr.
Definition spam_voc tr := build_voc (spam_mes tr).
Definition ham_voc tr := build_voc (ham_mes tr).
Definition n_spam_voc tr := length (spam_voc tr).
Definition n_ham_voc tr := length (ham_voc tr).
Definition n_vocab tr := length (vocabulary tr).

(** [mean(tidy_train$label == c)] *)
Definition p_class (c : label) (tr : list message) : Q :=
  Q_of_nat (length (filter (fun m => label_eqb (fst m) c) (tidy_train tr)))
  / Q_of_nat (length (tidy_train tr)).

Definition p_spam tr := p_class Spam tr.
Definition p_ham tr := p_class Ham tr.

(** The inner [map_int] of [spam_counts] / [ham_counts]: the count of [w]
    in every message, summed over the messages. *)
Definition class_count (mes : list text) (w : text) : nat :=
  sum_nat (map (fun sm => count_eq (str_split sm) w) mes).

(** A row of [word_counts]. *)
Record wc_row := mk_row { word : text; spam_count : nat; ham_count : nat }.

Fixpoint lookup (w : text) (t : list (text * nat)) : option nat :=
  match t with
  | [] => None
  | (k, v) :: r => if tok_eqb w k then Some v else lookup w r
  end.

Definition spam_counts tr : list (text * nat) :=
  map (fun w => (w, class_count (spam_mes tr) w)) (spam_voc tr).
Definition ham_counts tr : list (text * nat) :=
  map (fun w => (w, class_count (ham_mes tr) w)) (ham_voc tr).

(** [full_join(spam_counts, ham_counts, by = "word")] with the missing
    counts replaced by 0: the rows of [spam_counts] in order (with their
    matching ham count), then the rows of [ham_counts] without a match. *)
Definition word_counts (tr : list message) : list wc_row :=
  map (fun p => mk_row (fst p) (snd p)
                  (match lookup (fst p) (ham_counts tr) with
                   | Some hc => hc | None => 0 end))
      (spam_counts tr)
  ++ map (fun p => mk_row (fst p) 0 (snd p))
         (filter (fun p => negb (mem (fst p) (spam_voc tr))) (ham_counts tr)).

(* ================================================================= *)
(** ** [classify] *)

(** [(count + alpha) / (n_c_voc + alpha * n_vocab)] *)
Definition cond_prob (cnt : nat) (alpha : Q) (nc nv : nat) : Q :=
  (Q_of_nat cnt + alpha) / (Q_of_nat nc + alpha * Q_of_nat nv).

(** The [mutate] of [present_probs]: [(spam_prob, ham_prob)] of a row. *)
Definition row_probs (tr : list message) (alpha : Q) (r : wc_row) : Q * Q :=
  (cond_prob (spam_count r) alpha (n_spam_voc tr) (n_vocab tr),
   cond_prob (ham_count r) alpha (n_ham_voc tr) (n_vocab tr)).

Definition tokens (msg : text) : list text := str_split (normalize msg).

(** [word_counts %>% filter(word %in% words)] *)
Definition present_rows (tr : list message) (msg : text) : list wc_row :=
  filter (fun r => mem (word r) (tokens msg)) (word_counts tr).

Definition prod_q (l : list Q) : Q := fold_right Qmult 1 l.

(** The probabilities of the present rows, as computed by the [mutate]. *)
Definition present_probs (tr : list message) (alpha : Q) (msg : text) : list (Q * Q) :=
  map (row_probs tr alpha) (present_rows tr msg).

(** [new_word_probs]: [spam_prob = 1, ham_prob = 1] for each word of
    [new_words]. *)
Definition new_word_probs (new_words : list text) : list (Q * Q) :=
  map (fun _ => (1, 1)) new_words.

(** [present_probs %>% bind_rows(new_word_probs)] with
    [new_words <- setdiff(vocabulary, words)]. *)
Definition prob_rows (tr : list message) (alpha : Q) (msg : text) : list (Q * Q) :=
  present_probs tr alpha msg ++ new_word_probs (setdiff (vocabulary tr) (tokens msg)).

(** The two scores [p_spam * prod(spam_prob)] and [p_ham * prod(ham_prob)]
    ([pivot_longer], [group_by(label)], [summarize(prod(prob))]).  With
    no row at all, [summarize] yields no group and both scores are
    [numeric(0)]: [None]. *)
Definition scores (tr : list message) (alpha : Q) (msg : text) : option (Q * Q) :=
  match prob_rows tr alpha msg with
  | [] => None
  | rows => Some (p_spam tr * prod_q (map fst rows), p_ham tr * prod_q (map snd rows))
  end.

(** [ifelse(p_spam_given_message >= p_ham_given_message, "spam", "ham")];
    [None] is the empty result [logical(0)]. *)
Definition classify (tr : list message) (alpha : Q) (msg : text) : option label :=
  match scores tr alpha msg with
  | Some (ss, sh) => Some (if Qle_bool sh ss then Spam else Ham)
  | None => None
  end.

(* ================================================================= *)
(** ** Accuracy and the tuning loop *)

(** The levels of [table()]'s dimension: the labels present, sorted
    (["ham"] before ["spam"]). *)
Definition levels (l : list label) : list label :=
  (if existsb (label_eqb Ham) l then [Ham] else [])
  ++ (if existsb (label_eqb Spam) l then [Spam] else []).

Definition cell (rows : list (label * label)) (r c : label) : nat :=
  length (filter (fun p => label_eqb (fst p) r && label_eqb (snd p) c) rows).

(** [confusion[i + 1, j + 1]] of [table(label, prediction)]; [None] is
    "subscript out of bounds". *)
Definition confusion_at (rows : list (label * label)) (i j : nat) : option nat :=
  match nth_error (levels (map fst rows)) i, nth_error (levels (map snd rows)) j with
  | Some r, Some c => Some (cell rows r c)
  | _, _ => None
  end.

(** [(confusion[1,1] + confusion[2,2]) / nrow(cv)], rows being pairs
    (true label, prediction). *)
Definition accuracy (rows : list (label * label)) : option Q :=
  match confusion_at rows 0 0, confusion_at rows 1 1 with
  | Some a, Some b => Some (Q_of_nat (a + b) / Q_of_nat (length rows))
  | _, _ => None
  end.

(** [mutate(prediction = map_chr(sms, classify(m, alpha = alpha)))]:
    fails ([None]) when a prediction is not a single label. *)
Fixpoint predict (tr : list message) (alpha : Q) (cv : list message)
  : option (list (label * label)) :=
  match cv with
  | [] => Some []
  | m :: r =>
      match classify tr alpha (snd m), predict tr alpha r with
      | Some p, Some ps => Some ((fst m, p) :: ps)
      | _, _ => None
      end
  end.

(** [for (alpha in alpha_grid) { ...; cv_accuracy <- c(cv_accuracy, acc) }];
    an error aborts the loop. *)
Fixpoint cv_accuracy (tr cv : list message) (grid : list Q) : option (list Q) :=
  match grid with
  | [] => Some []
  | alpha :: g =>
      match predict tr alpha cv with
      | None => None
      | Some rows =>
          match accuracy rows, cv_accuracy tr cv g with
          | Some acc, Some accs => Some (acc :: accs)
          | _, _ => None
          end
      end
  end.

(** [tibble(alpha = alpha_grid, accuracy = cv_accuracy)] *)
Definition tuning_table (tr cv : list message) (grid : list Q) : option (list (Q * Q)) :=
  match cv_accuracy tr cv grid with
  | Some accs => Some (combine grid accs)
  | None => None
  end.

(* ================================================================= *)
(** ** Evaluating Numerical Expressions (Python notebook) *)

(** Python's [str.isspace] on the Latin-1 range. *)
Definition py_is_space (c : ascii) : bool :=
  let n := code c in
  ((9 <=? n) && (n <=? 13)) || ((28 <=? n) && (n <=? 31))
  || (n =? 32) || (n =? 133) || (n =? 160).

(** [str.split()]: the maximal runs of non-whitespace characters. *)
Fixpoint py_split (cur : text) (l : text) : list text :=
  match l with
  | [] => match cur with [] => [] | _ => [rev cur] end
  | c :: r =>
      if py_is_space c then
        match cur with
        | [] => py_split [] r
        | _ => rev cur :: py_split [] r
        end
      else py_split (c :: cur) r
  end.

(** [tokenize(string)] = [string.split()] *)
Definition tokenize (s : text) : list text := py_split [] s.

(** [Stack(LinkedList)].  [LinkedList] (linked_list.py) is not among the
    sources; as [Stack] uses it, it is a list of node data with [append]
    adding a node at the tail, [tail] the last node and [length] its
    size.  The stack is written as that list read from the tail (the
    top) to the head.  [peek] and [pop] read [self.tail.data], which
    raises (AttributeError on [None]) when the stack is empty. *)
Definition push {A} (x : A) (s : list A) : list A := x :: s.

Definition peek {A} (s : list A) : option A :=
  match s with [] => None | x :: _ => Some x end.

Definition pop {A} (s : list A) : option (A * list A) :=
  match s with [] => None | x :: r => Some (x, r) end.

(** The dictionary [precedence]. *)
Definition precedence (t : text) : option nat :=
  if tok_eqb t (T "+") then Some 1%nat
  else if tok_eqb t (T "-") then Some 1%nat
  else if tok_eqb t (T "*") then Some 2%nat
  else if tok_eqb t (T "/") then Some 2%nat
  else if tok_eqb t (T "**") then Some 3%nat
  else None.

Definition process_opening_parenthesis (s : list text) : list text := push (T "(") s.

(** [while stack.peek() != "(": postfix.append(stack.pop())] then
    [stack.pop()]; [None] is the error of [peek] on an empty stack. *)
Fixpoint process_closing_parenthesis (s postfix : list text)
  : option (list text * list text) :=
  match s with
  | [] => None
  | t :: r =>
      if tok_eqb t (T "(") then Some (r, postfix)
      else process_closing_parenthesis r (postfix ++ [t])
  end.

(** The loop of [process_operator]: pop while the top is an operator of
    precedence at least [p] (the precedence of the incoming operator). *)
Fixpoint pop_operators (s postfix : list text) (p : nat) : list text * list text :=
  match s with
  | [] => (s, postfix)
  | t :: r =>
      match precedence t with
      | Some q => if (p <=? q)%nat then pop_operators r (postfix ++ [t]) p else (s, postfix)
      | None => (s, postfix)
      end
  end.

Definition process_operator (s postfix : list text) (operator : text) (p : nat)
  : list text * list text :=
  let '(s', postfix') := pop_operators s postfix p in (push operator s', postfix').

Definition process_number (postfix : list text) (number : text) : list text :=
  postfix ++ [number].

(** One iteration of the [for token in tokens] loop of [infix_to_postfix]. *)
Definition infix_step (st : list text * list text) (token : text)
  : option (list text * list text) :=
  let '(s, postfix) := st in
  if tok_eqb token (T "(") then Some (process_opening_parenthesis s, postfix)
  else if tok_eqb token (T ")") then process_closing_parenthesis s postfix
  else match precedence token with
       | Some p => Some (process_operator s postfix token p)
       | None => Some (s, process_number postfix token)
       end.

Fixpoint infix_loop (st : list text * list text) (tokens : list text)
  : option (list text * list text) :=
  match tokens with
  | [] => Some st
  | t :: r =>
      match infix_step st t with
      | None => None
      | Some st' => infix_loop st' r
      end
  end.

(** The token list built by [infix_to_postfix]: the loop, then
    [while len(stack) > 0: postfix.append(stack.pop())]. *)
Definition shunting_yard (tokens : list text) : option (list text) :=
  match infix_loop ([], []) tokens with
  | None => None
  | Some (s, postfix) => Some (postfix ++ s)
  end.

(** [infix_to_postfix(expression)] = [" ".join(postfix)] *)
Definition infix_to_postfix (expression : text) : option text :=
  match shunting_yard (tokenize expression) with
  | None => None
  | Some postfix => Some (join_space postfix)
  end.

(** The operator tokens of [evaluate_postfix]. *)
Definition postfix_operator (t : text) : bool :=
  tok_eqb t (T "+") || tok_eqb t (T "-") || tok_eqb t (T "*")
  || tok_eqb t (T "/") || tok_eqb t (T "**").

Section Postfix.

(** The numbers of the stack (Python floats), [float(token)] ([None] is a
    ValueError) and the five binary operations [second_to_top op top]
    ([None] is an exception raised by the operation, such as
    ZeroDivisionError). *)
Variable num : Type.
Variable to_float : text -> option num.
Variables (plus minus times divide power : num -> num -> option num).

(** [process_plus] ... [process_pow] *)
Definition process_binop (op : num -> num -> option num) (s : list num) : option (list num) :=
  match pop s with
  | None => None
  | Some (top, s1) =>
      match pop s1 with
      | None => None
      | Some (second_to_top, s2) =>
          match op second_to_top top with
          | None => None
          | Some result => Some (push result s2)
          end
      end
  end.

(** One iteration of the loop of [evaluate_postfix]. *)
Definition postfix_step (s : list num) (token : text) : option (list num) :=
  if tok_eqb token (T "+") then process_binop plus s
  else if tok_eqb token (T "-") then process_binop minus s
  else if tok_eqb token (T "*") then process_binop times s
  else if tok_eqb token (T "/") then process_binop divide s
  else if tok_eqb token (T "**") then process_binop power s
  else match to_float token with
       | None => None
       | Some x => Some (push x s)
       end.

Fixpoint postfix_loop (s : list num) (tokens : list text) : option (list num) :=
  match tokens with
  | [] => Some s
  | t :: r =>
      match postfix_step s t with
      | None => None
      | Some s' => postfix_loop s' r
      end
  end.

(** [evaluate_postfix] on a token list: the loop, then [stack.pop()]. *)
Definition evaluate_postfix_tokens (tokens : list text) : option num :=
  match postfix_loop [] tokens with
  | None => None
  | Some s => match pop s with None => None | Some (x, _) => Some x end
  end.

Definition evaluate_postfix (expression : text) : option num :=
  evaluate_postfix_tokens (tokenize expression).

(** [evaluate(expression)] *)
Definition evaluate (expression : text) : option num :=
  match infix_to_postfix expression with
  | None => None
  | Some postfix_expression => evaluate_postfix postfix_expression
  end.

End Postfix.

(** Number tokens read as rationals: an optional minus sign and decimal
    digits (used only to run the evaluator on concrete inputs). *)
Fixpoint digits_value (acc : Z) (l : text) : option Z :=
  match l with
  | [] => Some acc
  | c :: r => if is_digit c then digits_value (10 * acc + Z.of_nat (code c - 48)%nat)%Z r else None
  end.

Definition q_of_token (t : text) : option Q :=
  match t with
  | [] => None
  | c :: r =>
      if Ascii.eqb c "-"%char then
        match r with [] => None | _ => option_map (fun z => inject_Z (- z)) (digits_value 0 r) end
      else option_map inject_Z (digits_value 0 t)
  end.

Definition q_plus (a b : Q) : option Q := Some (a + b)%Q.
Definition q_minus (a b : Q) : option Q := Some (a - b)%Q.
Definition q_times (a b : Q) : option Q := Some (a * b)%Q.
Definition q_divide (a b : Q) : option Q := if Qeq_bool b 0 then None else Some (a / b)%Q.
Definition q_power (a b : Q) : option Q :=
  if Qeq_bool b (inject_Z (Qfloor b)) && negb (Qeq_bool a 0 && (Qfloor b <? 0)%Z)
  then Some (a ^ Qfloor b)%Q else None.

(* ================================================================= *)
(** R's [from:to] on doubles: [from], then steps of 1 towards [to] while
    not past it, i.e. floor(|to - from|) + 1 values. *)
Fixpoint r_seq (from step : Q) (k : nat) : list Q :=
  match k with
  | O => [from]
  | S k => from :: r_seq (from + step) step k
  end.

Definition r_colon (from to : Q) : list Q :=
  if Qle_bool from to then r_seq from 1 (Z.to_nat (Qfloor (to - from)))
  else r_seq from (-1) (Z.to_nat (Qfloor (from - to))).

(** [v[idx]] for a numeric subscript: each subscript is truncated to an
    integer, 0 selects nothing and a position past the end gives NA
    ([None]).  The subscripts the notebook builds are never negative, so
    R's exclusion by negative subscripts is not modelled. *)
Definition r_subset {A} (v : list A) (idx : list Q) : list (option A) :=
  flat_map (fun i => match Z.to_nat (Qfloor i) with
                     | O => []
                     | S k => [nth_error v k]
                     end) idx.

(** [cv_indices] and [test_indices], from [remaining_indices]. *)
Definition cv_test_split {A} (remaining_indices : list A) : list (option A) * list (option A) :=
  let m := Q_of_nat (length remaining_indices) in
  (r_subset remaining_indices (r_colon 1 (m / 2)),
   r_subset remaining_indices (r_colon (m / 2 + 1) m)).

(** A token as [str.split()] produces it. *)
Definition tok_good (w : text) : Prop :=
  w <> [] /\ Forall (fun c => py_is_space c = false) w.

(** The tokens [infix_to_postfix] passes to [process_number]: neither a
    parenthesis nor an operator of [precedence]. *)
Definition is_operand (t : text) : bool :=
  negb (tok_eqb t (T "(")) && negb (tok_eqb t (T ")"))
  && match precedence t with None => true | Some _ => false end.

(** ** Concrete data *)

Definition scenario1 : list message :=
  [(Ham, T "Hello how are you"); (Spam, T "WIN money now"); (Ham, T "See you tomorrow")].

(** A validation set classified correctly by the model of [scenario1]. *)
Definition cv1 : list message := [(Spam, T "win money"); (Ham, T "see you")].

(** A spam word repeated inside one spam message. *)
Definition repeated_train : list message := [(Spam, T "a a"); (Ham, T "a")].

(** A validation set on which every prediction is [Spam]. *)
Definition cv_all_spam : list message := [(Spam, T "win money"); (Spam, T "money now")].

(** A training message cleaned to the empty string. *)
Definition empty_train : list message := [(Ham, T "123!"); (Spam, T "win")].

(** The characters a cleaned text is made of. *)
Definition clean_char (c : ascii) : Prop :=
  to_lower c = c /\ is_punct c = false /\ is_special c = false /\ is_digit c = false.

(* ================================================================= *)
(** ** Checks on the concrete data *)

Example ex_voc : vocabulary scenario1 =
  map T ["hello"; "how"; "are"; "you"; "win"; "money"; "now"; "see"; "tomorrow"]%string.
Proof. vm_compute. reflexivity. Qed.

Example ex_cls : classify scenario1 1 (T "win money") = Some Spam.
Proof. vm_compute. reflexivity. Qed.

Example ex_eval :
  evaluate Q q_of_token q_plus q_minus q_times q_divide q_power
    (T "4 * ( 1 + 2 * ( 9 / 3 ) - 5 )") = Some (24 # 3)%Q.
Proof. vm_compute. reflexivity. Qed.

Example ex_pow : infix_to_postfix (T "2 ** 3 ** 2") = Some (T "2 3 ** 2 **").
Proof. vm_compute. reflexivity. Qed.

Example ex_tune : tuning_table scenario1 cv1 [1; 1#2] = Some [(1, 2 # 2); (1 # 2, 2 # 2)].
Proof. vm_compute. reflexivity. Qed.

(* ================================================================= *)
(** ** The cleaning pipeline: a second pass only squishes *)

Lemma to_lower_idem (c : ascii) : to_lower (to_lower c) = to_lower c.
Proof. destruct c as [[] [] [] [] [] [] [] []]; vm_compute; reflexivity. Qed.

Lemma ws_runs_Forall (P : ascii -> Prop) (l cur : text) :
  Forall P cur -> Forall P l -> Forall (Forall P) (ws_runs cur l).
Proof.
  revert cur; induction l as [|c r IH]; intros cur Hc Hl; simpl.
  - destruct cur; constructor; auto using Forall_rev.
  - inversion Hl; subst.
    destruct (is_space c).
    + destruct cur; auto.
      constructor; [apply Forall_rev; exact Hc | apply IH; auto].
    + apply IH; auto.
Qed.

Lemma join_space_Forall (P : ascii -> Prop) (ws : list text) :
  P space -> Forall (Forall P) ws -> Forall P (join_space ws).
Proof.
  intros Hs; induction ws as [|w ws IH]; intros H; simpl; auto.
  inversion H; subst.
  destruct ws as [|w' ws'].
  - assumption.
  - apply Forall_app; split; auto.
Qed.

Lemma str_squish_Forall (P : ascii -> Prop) (l : text) :
  P space -> Forall P l -> Forall P (str_squish l).
Proof.
  intros Hs Hl. apply join_space_Forall; auto. apply ws_runs_Forall; auto.
Qed.

Lemma remove_class_Forall (P : ascii -> Prop) f (l : text) :
  Forall P l -> Forall P (remove_class f l).
Proof.
  intros H. apply Forall_forall; intros x Hx.
  apply filter_In in Hx. destruct Hx as [Hx _].
  rewrite Forall_forall in H. auto.
Qed.

Lemma remove_class_removes f (l : text) :
  Forall (fun c => f c = false) (remove_class f l).
Proof.
  apply Forall_forall; intros x Hx.
  apply filter_In in Hx. destruct Hx as [_ Hx].
  destruct (f x); [discriminate | reflexivity].
Qed.

Lemma remove_class_id f (l : text) :
  Forall (fun c => f c = false) l -> remove_class f l = l.
Proof.
  induction 1 as [|x l Hx _ IH]; simpl; [reflexivity|].
  rewrite Hx; simpl; rewrite IH; reflexivity.
Qed.

Lemma map_to_lower_id (l : text) :
  Forall (fun c => to_lower c = c) l -> map to_lower l = l.
Proof.
  induction 1 as [|x l Hx _ IH]; simpl; [reflexivity|]. rewrite Hx, IH; reflexivity.
Qed.

Lemma normalize_clean (s : text) : Forall clean_char (normalize s).
Proof.
  unfold normalize.
  assert (Hl : Forall (fun c => to_lower c = c)
                 (remove_class is_digit (remove_class is_special
                   (remove_class is_punct (str_squish (map to_lower s)))))).
  { repeat apply remove_class_Forall.
    apply str_squish_Forall; [reflexivity|].
    apply Forall_forall; intros x Hx. apply in_map_iff in Hx.
    destruct Hx as [y [<- _]]. apply to_lower_idem. }
  assert (Hp : Forall (fun c => is_punct c = false)
                 (remove_class is_digit (remove_class is_special
                   (remove_class is_punct (str_squish (map to_lower s)))))).
  { do 2 apply remove_class_Forall. apply remove_class_removes. }
  assert (Hs : Forall (fun c => is_special c = false)
                 (remove_class is_digit (remove_class is_special
                   (remove_class is_punct (str_squish (map to_lower s)))))).
  { apply remove_class_Forall. apply remove_class_removes. }
  pose proof (remove_class_removes is_digit
                (remove_class is_special
                   (remove_class is_punct (str_squish (map to_lower s))))) as Hd.
  rewrite Forall_forall in *. intros x Hx. repeat split; auto.
Qed.

Lemma normalize_twice (s : text) :
  normalize (normalize s) = str_squish (normalize s).
Proof.
  pose proof (normalize_clean s) as Hc.
  set (t := normalize s) in *.
  assert (Hsq : Forall clean_char (str_squish t)).
  { apply str_squish_Forall; [repeat split; reflexivity | exact Hc]. }
  unfold normalize at 1.
  rewrite (map_to_lower_id t).
  2:{ eapply Forall_impl; [|exact Hc]. intros c [H _]; exact H. }
  rewrite (remove_class_id is_punct).
  2:{ eapply Forall_impl; [|exact Hsq]. intros c (_ & H & _); exact H. }
  rewrite (remove_class_id is_special).
  2:{ eapply Forall_impl; [|exact Hsq]. intros c (_ & _ & H & _); exact H. }
  rewrite (remove_class_id is_digit).
  2:{ eapply Forall_impl; [|exact Hsq]. intros c (_ & _ & _ & H); exact H. }
  reflexivity.
Qed.

(* ================================================================= *)
(** ** Membership, [unique], vocabularies *)

Local Open Scope nat_scope.

Lemma tok_eqb_eq (a b : text) : tok_eqb a b = true <-> a = b.
Proof. unfold tok_eqb. destruct (list_eq_dec ascii_dec a b); split; congruence. Qed.

Lemma mem_In (w : text) (ws : list text) : mem w ws = true <-> In w ws.
Proof.
  unfold mem. rewrite existsb_exists. split.
  - intros [x [Hx Heq]]. apply tok_eqb_eq in Heq. subst; assumption.
  - intros H. exists w. split; [assumption | apply tok_eqb_eq; reflexivity].
Qed.

Lemma mem_false (w : text) (ws : list text) : mem w ws = false <-> ~ In w ws.
Proof.
  rewrite <- mem_In. destruct (mem w ws); split; congruence.
Qed.

Lemma unique_aux_In (x : text) (l seen : list text) :
  In x (unique_aux seen l) <-> In x l /\ ~ In x seen.
Proof.
  revert seen; induction l as [|y r IH]; intros seen; simpl.
  - tauto.
  - destruct (mem y seen) eqn:Hm.
    + apply mem_In in Hm. rewrite IH.
      split; [tauto|]. intros [[<- | H1] H2]; [contradiction | tauto].
    + apply mem_false in Hm. simpl. rewrite IH. simpl.
      destruct (list_eq_dec ascii_dec y x) as [<- | Hne]; [tauto|].
      split; [intros [H | [H1 H2]]; [congruence | tauto]|].
      intros [[H | H1] H2]; [congruence|]. right. split; [assumption|].
      intros [H | H]; [congruence | contradiction].
Qed.

Lemma unique_In (x : text) (l : list text) : In x (unique l) <-> In x l.
Proof. unfold unique. rewrite unique_aux_In. simpl. tauto. Qed.

Lemma unique_nil (l : list text) : unique l = [] -> l = [].
Proof. destruct l as [|x r]; [reflexivity|]. unfold unique; simpl. discriminate. Qed.

Lemma str_split_nonempty (l : text) : str_split l <> [].
Proof.
  destruct l as [|c r]; simpl; [discriminate|].
  destruct (Ascii.eqb c space); [discriminate|].
  destruct (str_split r); discriminate.
Qed.

Lemma build_voc_In (w : text) (mes : list text) :
  In w (build_voc mes) <-> exists m, In m mes /\ In w (str_split m).
Proof.
  unfold build_voc. rewrite unique_In, in_concat. split.
  - intros [ws [Hws Hw]]. apply in_map_iff in Hws. destruct Hws as [m [<- Hm]].
    exists m; auto.
  - intros [m [Hm Hw]]. exists (str_split m). split; [apply in_map; assumption | assumption].
Qed.

Lemma class_voc_in_vocabulary (c : label) (tr : list message) (w : text) :
  In w (build_voc (class_mes c tr)) -> In w (vocabulary tr).
Proof.
  unfold vocabulary, class_mes. rewrite !build_voc_In.
  intros [m [Hm Hw]]. exists m. split; [|assumption].
  apply in_map_iff in Hm. destruct Hm as [x [<- Hx]].
  apply filter_In in Hx. apply in_map. tauto.
Qed.

Lemma vocabulary_in_class_voc (tr : list message) (w : text) :
  In w (vocabulary tr) -> In w (spam_voc tr) \/ In w (ham_voc tr).
Proof.
  unfold vocabulary, spam_voc, ham_voc, spam_mes, ham_mes, class_mes.
  rewrite !build_voc_In. intros [m [Hm Hw]].
  apply in_map_iff in Hm. destruct Hm as [[l t] [<- Hx]].
  destruct l; [right | left]; exists t; split; auto;
    apply in_map_iff; eexists; (split; [|apply filter_In; split; [exact Hx | reflexivity]]);
    reflexivity.
Qed.

Lemma vocabulary_nonempty (tr : list message) : tr <> [] -> vocabulary tr <> [].
Proof.
  intros Htr Hv. destruct tr as [|m0 r]; [contradiction|].
  destruct (str_split (normalize (snd m0))) as [|w ws] eqn:Hs.
  - exact (str_split_nonempty _ Hs).
  - assert (Hw : In w (vocabulary (m0 :: r))).
    { unfold vocabulary. apply build_voc_In. exists (normalize (snd m0)).
      split; [left; reflexivity | rewrite Hs; left; reflexivity]. }
    rewrite Hv in Hw. contradiction.
Qed.

(* ================================================================= *)
(** ** The word-count table *)

Lemma count_eq_app (a b : list text) (w : text) :
  (count_eq (a ++ b) w = count_eq a w + count_eq b w)%nat.
Proof. unfold count_eq. rewrite filter_app, length_app. reflexivity. Qed.

Lemma class_count_concat (mes : list text) (w : text) :
  class_count mes w = count_eq (concat (map str_split mes)) w.
Proof.
  induction mes as [|m r IH]; [reflexivity|].
  simpl. rewrite count_eq_app, <- IH. reflexivity.
Qed.

Lemma count_eq_not_In (ws : list text) (w : text) : ~ In w ws -> count_eq ws w = 0.
Proof.
  unfold count_eq. induction ws as [|x r IH]; intros H; simpl; [reflexivity|].
  destruct (tok_eqb w x) eqn:E.
  - apply tok_eqb_eq in E. subst. exfalso. apply H. left; reflexivity.
  - apply IH. intros Hr. apply H. right; assumption.
Qed.

Lemma count_eq_In (ws : list text) (w : text) : In w ws -> (1 <= count_eq ws w)%nat.
Proof.
  unfold count_eq. intros H.
  assert (Hf : In w (filter (tok_eqb w) ws)) by (apply filter_In; split; [exact H | apply tok_eqb_eq; reflexivity]).
  destruct (filter (tok_eqb w) ws); [contradiction | simpl; lia].
Qed.

Lemma class_count_not_voc (mes : list text) (w : text) :
  ~ In w (build_voc mes) -> class_count mes w = 0.
Proof.
  intros H. rewrite class_count_concat. apply count_eq_not_In.
  intros Hc. apply H. unfold build_voc. apply unique_In. exact Hc.
Qed.

Lemma lookup_map (f : text -> nat) (l : list text) (w : text) :
  lookup w (map (fun x => (x, f x)) l) = if mem w l then Some (f w) else None.
Proof.
  induction l as [|x r IH]; simpl; [reflexivity|].
  unfold mem in *. simpl.
  destruct (tok_eqb w x) eqn:E; simpl.
  - apply tok_eqb_eq in E; subst; reflexivity.
  - exact IH.
Qed.

(** Every row of [word_counts] holds, for each class, the summed
    per-message count of its word. *)
Lemma word_counts_rows (tr : list message) (r : wc_row) :
  In r (word_counts tr) ->
  (In (word r) (spam_voc tr) \/ In (word r) (ham_voc tr))
  /\ spam_count r = class_count (spam_mes tr) (word r)
  /\ ham_count r = class_count (ham_mes tr) (word r).
Proof.
  unfold word_counts. intros H. apply in_app_or in H. destruct H as [H | H].
  - apply in_map_iff in H. destruct H as [[w sc] [<- Hp]].
    unfold spam_counts in Hp. apply in_map_iff in Hp. destruct Hp as [w' [Heq Hw]].
    injection Heq as E1 E2; subst w' sc. simpl. split; [left; exact Hw|]. split; [reflexivity|].
    unfold ham_counts. rewrite lookup_map.
    destruct (mem w (ham_voc tr)) eqn:Hm; [reflexivity|].
    apply mem_false in Hm. symmetry. apply class_count_not_voc. exact Hm.
  - apply in_map_iff in H. destruct H as [[w hc] [<- Hp]].
    apply filter_In in Hp. destruct Hp as [Hp Hn]. simpl in Hn.
    apply negb_true_iff, mem_false in Hn.
    unfold ham_counts in Hp. apply in_map_iff in Hp. destruct Hp as [w' [Heq Hw]].
    injection Heq as E1 E2; subst w' hc. simpl. split; [right; exact Hw|]. split; [|reflexivity].
    symmetry. apply class_count_not_voc. exact Hn.
Qed.

(** Every word of a class vocabulary has a row. *)
Lemma word_counts_complete (tr : list message) (w : text) :
  In w (spam_voc tr) \/ In w (ham_voc tr) ->
  exists r, In r (word_counts tr) /\ word r = w.
Proof.
  intros H. unfold word_counts.
  destruct (mem w (spam_voc tr)) eqn:Hm.
  - apply mem_In in Hm.
    eexists. split; [apply in_or_app; left; apply in_map_iff|].
    + exists (w, class_count (spam_mes tr) w). split; [reflexivity|].
      unfold spam_counts. apply in_map_iff. exists w. auto.
    + reflexivity.
  - assert (Hh : In w (ham_voc tr)).
    { destruct H as [H | H]; [apply mem_false in Hm; contradiction | exact H]. }
    eexists. split; [apply in_or_app; right; apply in_map_iff|].
    + exists (w, class_count (ham_mes tr) w). split; [reflexivity|].
      apply filter_In. split; [unfold ham_counts; apply in_map_iff; exists w; auto|].
      simpl. rewrite Hm. reflexivity.
    + reflexivity.
Qed.

Lemma word_counts_in_vocabulary (tr : list message) (r : wc_row) :
  In r (word_counts tr) -> In (word r) (vocabulary tr).
Proof.
  intros H. apply word_counts_rows in H. destruct H as [[H | H] _];
    eapply class_voc_in_vocabulary; exact H.
Qed.

(* ================================================================= *)
(** ** Scores *)

Lemma filter_all_false {A} (f : A -> bool) (l : list A) :
  (forall x, In x l -> f x = false) -> filter f l = [].
Proof.
  intros H. rewrite (filter_ext_in f (fun _ => false)); [apply filter_false|].
  exact H.
Qed.

Lemma prob_rows_nonempty (tr : list message) (alpha : Q) (msg : text) :
  tr <> [] -> prob_rows tr alpha msg <> [].
Proof.
  intros Htr.
  destruct (vocabulary tr) as [|v vs] eqn:Hv; [destruct (vocabulary_nonempty tr Htr Hv)|].
  assert (Hin : In v (vocabulary tr)) by (rewrite Hv; left; reflexivity).
  unfold prob_rows, present_probs, new_word_probs.
  destruct (mem v (tokens msg)) eqn:Hm.
  - destruct (word_counts_complete tr v (vocabulary_in_class_voc tr v Hin)) as [r [Hr Hw]].
    assert (Hp : In r (present_rows tr msg)).
    { apply filter_In. rewrite Hw. auto. }
    destruct (present_rows tr msg); [contradiction | discriminate].
  - unfold setdiff. rewrite Hv.
    simpl. rewrite Hm. simpl.
    destruct (map (row_probs tr alpha) (present_rows tr msg)); discriminate.
Qed.

Lemma scores_some (tr : list message) (alpha : Q) (msg : text) :
  tr <> [] ->
  scores tr alpha msg =
  Some (p_spam tr * prod_q (map fst (prob_rows tr alpha msg)),
        p_ham tr * prod_q (map snd (prob_rows tr alpha msg)))%Q.
Proof.
  intros Htr. pose proof (prob_rows_nonempty tr alpha msg Htr) as H.
  unfold scores. destruct (prob_rows tr alpha msg); [contradiction | reflexivity].
Qed.

Lemma prod_q_app (a b : list Q) : (prod_q (a ++ b) == prod_q a * prod_q b)%Q.
Proof.
  induction a as [|x r IH]; simpl.
  - rewrite Qmult_1_l. reflexivity.
  - rewrite IH. apply Qmult_assoc.
Qed.

Lemma prod_q_ones (ws : list text) :
  (prod_q (map fst (new_word_probs ws)) == 1 /\ prod_q (map snd (new_word_probs ws)) == 1)%Q.
Proof.
  induction ws as [|w ws [IH1 IH2]]; simpl; [split; reflexivity|].
  rewrite IH1, IH2. split; reflexivity.
Qed.

(** The scores only use the present rows: each is the prior times the
    product of the probabilities of the table rows whose word occurs in
    the message. *)
Lemma scores_present (tr : list message) (alpha : Q) (msg : text) :
  tr <> [] ->
  exists ss sh, scores tr alpha msg = Some (ss, sh)
    /\ (ss == p_spam tr * prod_q (map fst (present_probs tr alpha msg)))%Q
    /\ (sh == p_ham tr * prod_q (map snd (present_probs tr alpha msg)))%Q.
Proof.
  intros Htr. rewrite (scores_some tr alpha msg Htr).
  do 2 eexists. split; [reflexivity|].
  unfold prob_rows. rewrite !map_app, !prod_q_app.
  destruct (prod_q_ones (setdiff (vocabulary tr) (tokens msg))) as [H1 H2].
  rewrite H1, H2, !Qmult_1_r. split; reflexivity.
Qed.

Lemma present_rows_ext (tr : list message) (m1 m2 : text) :
  forallb (fun w => Bool.eqb (mem w (tokens m1)) (mem w (tokens m2))) (vocabulary tr) = true ->
  present_rows tr m1 = present_rows tr m2
  /\ setdiff (vocabulary tr) (tokens m1) = setdiff (vocabulary tr) (tokens m2).
Proof.
  intros H. rewrite forallb_forall in H. split.
  - unfold present_rows. apply filter_ext_in. intros r Hr.
    apply Bool.eqb_prop. apply H. apply word_counts_in_vocabulary. exact Hr.
  - unfold setdiff. f_equal. apply filter_ext_in. intros w Hw.
    f_equal. apply Bool.eqb_prop. apply H. exact Hw.
Qed.

Lemma p_class_sum (tr : list message) :
  length (filter (fun m => label_eqb (fst m) Spam) tr)
  + length (filter (fun m => label_eqb (fst m) Ham) tr) = length tr.
Proof.
  induction tr as [|[[] t] r IH]; simpl; lia.
Qed.

(* ================================================================= *)
(** ** The confusion table and the accuracy *)

Lemma label_eqb_eq (a b : label) : label_eqb a b = true <-> a = b.
Proof. destruct a, b; simpl; split; congruence. Qed.

Lemma existsb_label (x : label) (l : list label) : existsb (label_eqb x) l = true <-> In x l.
Proof.
  rewrite existsb_exists. split.
  - intros [y [Hy E]]. apply label_eqb_eq in E. subst; exact Hy.
  - intros H. exists x. split; [exact H | apply label_eqb_eq; reflexivity].
Qed.

Lemma levels_second (l : list label) :
  nth_error (levels l) 1 <> None <-> In Ham l /\ In Spam l.
Proof.
  rewrite <- !existsb_label. unfold levels.
  destruct (existsb (label_eqb Ham) l), (existsb (label_eqb Spam) l); simpl;
    split; intuition congruence.
Qed.

Lemma levels_both (l : list label) : In Ham l -> In Spam l -> levels l = [Ham; Spam].
Proof.
  rewrite <- !existsb_label. unfold levels. intros -> ->. reflexivity.
Qed.

Lemma accuracy_defined (rows : list (label * label)) :
  accuracy rows <> None <->
  In Ham (map fst rows) /\ In Spam (map fst rows)
  /\ In Ham (map snd rows) /\ In Spam (map snd rows).
Proof.
  unfold accuracy, confusion_at. split.
  - intros H.
    destruct (nth_error (levels (map fst rows)) 1) eqn:E1;
      [|destruct (nth_error (levels (map fst rows)) 0), (nth_error (levels (map snd rows)) 0);
        contradiction].
    destruct (nth_error (levels (map snd rows)) 1) eqn:E2;
      [|destruct (nth_error (levels (map fst rows)) 0), (nth_error (levels (map snd rows)) 0);
        contradiction].
    assert (A1 : nth_error (levels (map fst rows)) 1 <> None) by congruence.
    assert (A2 : nth_error (levels (map snd rows)) 1 <> None) by congruence.
    apply levels_second in A1, A2. tauto.
  - intros (H1 & H2 & H3 & H4).
    rewrite (levels_both _ H1 H2), (levels_both _ H3 H4). simpl. discriminate.
Qed.

Lemma accuracy_value (rows : list (label * label)) (a : Q) :
  accuracy rows = Some a ->
  a = (Q_of_nat (cell rows Ham Ham + cell rows Spam Spam) / Q_of_nat (length rows))%Q.
Proof.
  intros H.
  assert (Hd : accuracy rows <> None) by congruence.
  apply accuracy_defined in Hd. destruct Hd as (H1 & H2 & H3 & H4).
  unfold accuracy, confusion_at in H.
  rewrite (levels_both _ H1 H2), (levels_both _ H3 H4) in H. simpl in H.
  injection H as <-. reflexivity.
Qed.

Lemma cell_diag_le (rows : list (label * label)) :
  cell rows Ham Ham + cell rows Spam Spam <= length rows.
Proof.
  unfold cell. induction rows as [|[[] []] r IH]; simpl; lia.
Qed.

Lemma Q_of_nat_le (a b : nat) : a <= b -> (Q_of_nat a <= Q_of_nat b)%Q.
Proof. intros H. unfold Q_of_nat. rewrite <- Zle_Qle. lia. Qed.

Lemma accuracy_bounds (rows : list (label * label)) (a : Q) :
  accuracy rows = Some a -> (0 <= a /\ a <= 1)%Q.
Proof.
  intros H. apply accuracy_value in H. subst a.
  pose proof (cell_diag_le rows) as Hle.
  set (k := cell rows Ham Ham + cell rows Spam Spam) in *.
  destruct (length rows) as [|n] eqn:En.
  - assert (k = 0) as -> by lia. split; vm_compute; discriminate.
  - assert (Hn : (0 < Q_of_nat (S n))%Q) by (unfold Q_of_nat; change 0%Q with (inject_Z 0); rewrite <- Zlt_Qlt; lia).
    split.
    + apply Qle_shift_div_l; [exact Hn|]. rewrite Qmult_0_l.
      apply (Q_of_nat_le 0). lia.
    + apply Qle_shift_div_r; [exact Hn|]. rewrite Qmult_1_l.
      apply Q_of_nat_le. exact Hle.
Qed.

(* ================================================================= *)
(** ** The tuning loop *)

Lemma cv_accuracy_shape (tr cv : list message) (grid : list Q) (accs : list Q) :
  cv_accuracy tr cv grid = Some accs ->
  length accs = length grid /\ Forall (fun a => 0 <= a /\ a <= 1)%Q accs.
Proof.
  revert accs; induction grid as [|alpha g IH]; intros accs H; simpl in H.
  - injection H as <-. split; [reflexivity | constructor].
  - destruct (predict tr alpha cv) as [rows|]; [|discriminate].
    destruct (accuracy rows) as [acc|] eqn:Ea; [|discriminate].
    destruct (cv_accuracy tr cv g) as [accs'|]; [|discriminate].
    injection H as <-. destruct (IH accs' eq_refl) as [Hl Hf].
    split; [simpl; rewrite Hl; reflexivity|].
    constructor; [apply (accuracy_bounds rows); exact Ea | exact Hf].
Qed.

Lemma cv_accuracy_abort (tr cv : list message) (grid : list Q) (alpha : Q)
  (rows : list (label * label)) :
  In alpha grid -> predict tr alpha cv = Some rows -> accuracy rows = None ->
  cv_accuracy tr cv grid = None.
Proof.
  intros Hin Hp Ha. induction grid as [|b g IH]; [destruct Hin|].
  simpl. destruct Hin as [<- | Hin].
  - rewrite Hp, Ha. reflexivity.
  - destruct (predict tr b cv) as [rows'|]; [|reflexivity].
    rewrite (IH Hin). destruct (accuracy rows'); reflexivity.
Qed.

Lemma map_fst_combine {A B} (l : list A) (l' : list B) :
  length l = length l' -> map fst (combine l l') = l.
Proof.
  revert l'; induction l as [|x r IH]; intros [|y r'] H; simpl in *;
    try discriminate; [reflexivity|].
  rewrite IH; [reflexivity | lia].
Qed.

Lemma map_snd_combine {A B} (l : list A) (l' : list B) :
  length l = length l' -> map snd (combine l l') = l'.
Proof.
  revert l'; induction l as [|x r IH]; intros [|y r'] H; simpl in *;
    try discriminate; [reflexivity|].
  rewrite IH; [reflexivity | lia].
Qed.

(* ================================================================= *)
(** ** Claims *)

(** C1 (corrected).  For every row of the joined word-count table, the
    probabilities used by [classify] are
    [(count(w,c) + alpha) / (N_c_vocab + alpha * N_vocab)], and they are
    strictly positive whenever [alpha > 0], also for a zero count.  They
    are not always below 1: the count is an occurrence count while
    [N_c_vocab] counts distinct words. *)
Theorem cond_prob_formula_pos (tr : list message) (alpha : Q) (r : wc_row) :
  In r (word_counts tr) ->
  fst (row_probs tr alpha r)
    = ((Q_of_nat (spam_count r) + alpha) / (Q_of_nat (n_spam_voc tr) + alpha * Q_of_nat (n_vocab tr)))%Q
  /\ snd (row_probs tr alpha r)
    = ((Q_of_nat (ham_count r) + alpha) / (Q_of_nat (n_ham_voc tr) + alpha * Q_of_nat (n_vocab tr)))%Q
  /\ ((0 < alpha)%Q -> (0 < fst (row_probs tr alpha r))%Q /\ (0 < snd (row_probs tr alpha r))%Q).
Proof.
  intros Hr. split; [reflexivity|]. split; [reflexivity|]. intros Ha.
  assert (Hv : 1 <= n_vocab tr).
  { unfold n_vocab. pose proof (word_counts_in_vocabulary tr r Hr) as Hw.
    destruct (vocabulary tr); [destruct Hw | simpl; lia]. }
  assert (Hnv : (0 < alpha * Q_of_nat (n_vocab tr))%Q).
  { apply Qmult_lt_0_compat; [exact Ha|].
    unfold Q_of_nat; change 0%Q with (inject_Z 0); rewrite <- Zlt_Qlt; lia. }
  assert (Hpos : forall k nc, (0 < cond_prob k alpha nc (n_vocab tr))%Q).
  { intros k nc. unfold cond_prob.
    pose proof (Q_of_nat_le 0 k ltac:(lia)) as Hk.
    pose proof (Q_of_nat_le 0 nc ltac:(lia)) as Hc.
    change (Q_of_nat 0) with 0%Q in Hk, Hc.
    apply Qlt_shift_div_l; [lra|]. rewrite Qmult_0_l. lra. }
  split; apply Hpos.
Qed.

Lemma cond_prob_formula_pos_witness :
  In (mk_row (T "win") 1 0) (word_counts scenario1)
  /\ (0 < fst (row_probs scenario1 1 (mk_row (T "win") 1 0)))%Q
  /\ (0 < snd (row_probs scenario1 1 (mk_row (T "win") 1 0)))%Q.
Proof.
  assert (H : In (mk_row (T "win") 1 0) (word_counts scenario1))
    by (vm_compute; left; reflexivity).
  destruct (cond_prob_formula_pos scenario1 1 _ H) as (_ & _ & Hp).
  split; [exact H|]. apply Hp. reflexivity.
Defined.

(** C1 counterexample: with the spam message ["a a"] and the ham message
    ["a"], [N_spam_vocab = N_vocab = 1] and [count(a, spam) = 2], so
    [P(a|spam) = (2 + 1) / (1 + 1) = 3/2]. *)
Lemma cond_prob_above_one :
  In (mk_row (T "a") 2 1) (word_counts repeated_train)
  /\ fst (row_probs repeated_train 1 (mk_row (T "a") 2 1)) = (3 # 2)%Q
  /\ ~ (fst (row_probs repeated_train 1 (mk_row (T "a") 2 1)) < 1)%Q.
Proof.
  split; [vm_compute; left; reflexivity|]. split; [vm_compute; reflexivity|].
  vm_compute. discriminate.
Qed.

(** C2.  Words of a message absent from the training vocabulary change
    neither score: with a non-empty training set, both scores are the
    priors times the products over the table rows present in the message;
    two messages containing the same vocabulary words get the same scores;
    a message with no vocabulary word gets exactly the two priors. *)
Theorem classify_unseen_neutral (tr : list message) (alpha : Q) (m1 : text) :
  tr <> [] ->
  (exists ss sh, scores tr alpha m1 = Some (ss, sh)
     /\ (ss == p_spam tr * prod_q (map fst (present_probs tr alpha m1)))%Q
     /\ (sh == p_ham tr * prod_q (map snd (present_probs tr alpha m1)))%Q)
  /\ (forall m2,
        forallb (fun w => Bool.eqb (mem w (tokens m1)) (mem w (tokens m2))) (vocabulary tr) = true ->
        scores tr alpha m1 = scores tr alpha m2)
  /\ (forallb (fun w => negb (mem w (vocabulary tr))) (tokens m1) = true ->
      exists ss sh, scores tr alpha m1 = Some (ss, sh)
        /\ (ss == p_spam tr)%Q /\ (sh == p_ham tr)%Q).
Proof.
  intros Htr. split; [apply scores_present; exact Htr|]. split.
  - intros m2 H. destruct (present_rows_ext tr m1 m2 H) as [Hp Hs].
    unfold scores, prob_rows, present_probs. rewrite Hp, Hs. reflexivity.
  - intros H. destruct (scores_present tr alpha m1 Htr) as (ss & sh & Hs & H1 & H2).
    assert (Hnil : present_rows tr m1 = []).
    { unfold present_rows. apply filter_all_false. intros r Hr.
      apply mem_false. intros Hin.
      rewrite forallb_forall in H. specialize (H _ Hin).
      apply negb_true_iff, mem_false in H. apply H.
      apply word_counts_in_vocabulary. exact Hr. }
    exists ss, sh. split; [exact Hs|].
    unfold present_probs in H1, H2. rewrite Hnil in H1, H2. simpl in H1, H2.
    rewrite Qmult_1_r in H1, H2. split; assumption.
Qed.

Lemma classify_unseen_neutral_witness :
  exists ss sh, scores scenario1 1 (T "zzz qqq") = Some (ss, sh)
    /\ (ss == p_spam scenario1)%Q /\ (sh == p_ham scenario1)%Q.
Proof.
  apply (classify_unseen_neutral scenario1 1 (T "zzz qqq")); [discriminate|].
  vm_compute. reflexivity.
Defined.

(** C3.  With a non-empty training set both scores exist and [classify]
    returns [Spam] exactly when [score(spam) >= score(ham)], [Ham]
    otherwise; an exact tie gives [Spam]. *)
Theorem classify_tie_spam (tr : list message) (alpha : Q) (msg : text) :
  tr <> [] ->
  exists ss sh, scores tr alpha msg = Some (ss, sh)
    /\ classify tr alpha msg = Some (if Qle_bool sh ss then Spam else Ham)
    /\ ((sh <= ss)%Q -> classify tr alpha msg = Some Spam)
    /\ ((ss < sh)%Q -> classify tr alpha msg = Some Ham)
    /\ ((ss == sh)%Q -> classify tr alpha msg = Some Spam).
Proof.
  intros Htr. rewrite (scores_some tr alpha msg Htr).
  do 2 eexists. split; [reflexivity|].
  unfold classify. rewrite (scores_some tr alpha msg Htr).
  set (ss := (p_spam tr * prod_q (map fst (prob_rows tr alpha msg)))%Q).
  set (sh := (p_ham tr * prod_q (map snd (prob_rows tr alpha msg)))%Q).
  split; [reflexivity|].
  split; [intros H; apply Qle_bool_iff in H; rewrite H; reflexivity|].
  split.
  - intros H. destruct (Qle_bool sh ss) eqn:E; [|reflexivity].
    apply Qle_bool_iff in E. exfalso. apply (Qlt_not_le ss sh); assumption.
  - intros H. assert (Hle : (sh <= ss)%Q) by (rewrite H; apply Qle_refl).
    apply Qle_bool_iff in Hle. rewrite Hle. reflexivity.
Qed.

Lemma classify_tie_spam_witness :
  exists ss sh, scores repeated_train 1 (T "zzz") = Some (ss, sh)
    /\ classify repeated_train 1 (T "zzz") = Some (if Qle_bool sh ss then Spam else Ham)
    /\ ((sh <= ss)%Q -> classify repeated_train 1 (T "zzz") = Some Spam)
    /\ ((ss < sh)%Q -> classify repeated_train 1 (T "zzz") = Some Ham)
    /\ ((ss == sh)%Q -> classify repeated_train 1 (T "zzz") = Some Spam).
Proof. apply (classify_tie_spam repeated_train 1 (T "zzz")). discriminate. Defined.

(** C4 (corrected).  The cleaning pipeline is not idempotent: whitespace
    is squished before punctuation, special characters and digits are
    removed, so a cleaned text may keep leading, trailing or doubled
    spaces.  A second pass only squishes them:
    [normalize (normalize s) = str_squish (normalize s)]. *)
Theorem normalize_second_pass (s : text) :
  normalize (normalize s) = str_squish (normalize s).
Proof. apply normalize_twice. Qed.

(** C4 counterexample: ["a . b"] cleans to ["a  b"] (two spaces), which
    cleans to ["a b"]. *)
Lemma normalize_not_idempotent :
  normalize (T "a . b") = T "a  b"
  /\ normalize (normalize (T "a . b")) = T "a b"
  /\ normalize (normalize (T "a . b")) <> normalize (T "a . b").
Proof. split; [reflexivity|]. split; [reflexivity|]. vm_compute. discriminate. Qed.

(** C5.  Every row of the joined table holds, for each class, the number
    of token slots of that class's cleaned messages equal to its word
    (occurrences summed over messages); a word absent from a class's
    vocabulary has count 0 for that class; every word of either class
    vocabulary has a row. *)
Theorem word_counts_token_slots (tr : list message) :
  (forall r, In r (word_counts tr) ->
     spam_count r = count_eq (concat (map str_split (spam_mes tr))) (word r)
     /\ ham_count r = count_eq (concat (map str_split (ham_mes tr))) (word r)
     /\ (~ In (word r) (spam_voc tr) -> spam_count r = 0)
     /\ (~ In (word r) (ham_voc tr) -> ham_count r = 0))
  /\ (forall w, In w (spam_voc tr) \/ In w (ham_voc tr) ->
        exists r, In r (word_counts tr) /\ word r = w).
Proof.
  split; [|apply word_counts_complete].
  intros r Hr. destruct (word_counts_rows tr r Hr) as (_ & Hs & Hh).
  rewrite <- !class_count_concat.
  split; [exact Hs|]. split; [exact Hh|]. split.
  - intros Hn. rewrite Hs. apply class_count_not_voc. exact Hn.
  - intros Hn. rewrite Hh. apply class_count_not_voc. exact Hn.
Qed.

(** C6 (corrected).  On scenario 1 the vocabulary is
    [hello how are you win money now see tomorrow]: 9 words, not 10;
    [classify("win money", alpha = 1)] is [Spam]. *)
Theorem scenario1_vocab_classify :
  vocabulary scenario1
    = map T ["hello"; "how"; "are"; "you"; "win"; "money"; "now"; "see"; "tomorrow"]%string
  /\ n_vocab scenario1 = 9
  /\ classify scenario1 1 (T "win money") = Some Spam.
Proof. split; [|split]; vm_compute; reflexivity. Qed.

(** C6 counterexample: the vocabulary of scenario 1 does not have 10
    words. *)
Lemma scenario1_vocab_not_ten : n_vocab scenario1 <> 10.
Proof. vm_compute. discriminate. Qed.

(** C7.  For a non-empty training set the priors sum to 1. *)
Theorem priors_sum_one (tr : list message) :
  tr <> [] -> (p_spam tr + p_ham tr == 1)%Q.
Proof.
  intros Htr. unfold p_spam, p_ham, p_class.
  pose proof (p_class_sum (tidy_train tr)) as Hs.
  set (a := length (filter (fun m => label_eqb (fst m) Spam) (tidy_train tr))) in *.
  set (b := length (filter (fun m => label_eqb (fst m) Ham) (tidy_train tr))) in *.
  set (n := length (tidy_train tr)) in *.
  assert (Hn : ~ (Q_of_nat n == 0)%Q).
  { unfold n, tidy_train. rewrite length_map.
    destruct tr as [|m r]; [contradiction|]. simpl length.
    unfold Q_of_nat. change 0%Q with (inject_Z 0). rewrite inject_Z_injective. lia. }
  assert (Hab : (Q_of_nat a + Q_of_nat b == Q_of_nat n)%Q).
  { unfold Q_of_nat. rewrite <- inject_Z_plus, <- Znat.Nat2Z.inj_add, Hs. reflexivity. }
  setoid_replace (Q_of_nat a / Q_of_nat n + Q_of_nat b / Q_of_nat n)%Q
    with ((Q_of_nat a + Q_of_nat b) / Q_of_nat n)%Q by (field; exact Hn).
  rewrite Hab. field. exact Hn.
Qed.

Lemma priors_sum_one_witness : (p_spam scenario1 + p_ham scenario1 == 1)%Q.
Proof. apply (priors_sum_one scenario1). discriminate. Defined.

(** C8 (corrected).  Whenever the tuning loop completes, its table has
    one [(alpha, accuracy)] pair per candidate, in the candidates' order,
    with every accuracy in [0, 1]; it does not always complete: if for
    some candidate the confusion table is not 2 by 2, the loop aborts
    and no table is produced. *)
Theorem tuning_table_shape (tr cv : list message) (grid : list Q) :
  (forall tbl, tuning_table tr cv grid = Some tbl ->
     length tbl = length grid /\ map fst tbl = grid
     /\ Forall (fun a => 0 <= a /\ a <= 1)%Q (map snd tbl))
  /\ (forall alpha rows, In alpha grid -> predict tr alpha cv = Some rows ->
        accuracy rows = None -> tuning_table tr cv grid = None).
Proof.
  split.
  - intros tbl H. unfold tuning_table in H.
    destruct (cv_accuracy tr cv grid) as [accs|] eqn:E; [|discriminate].
    injection H as <-. destruct (cv_accuracy_shape tr cv grid accs E) as [Hl Hf].
    split; [rewrite length_combine, Hl; lia|].
    split; [apply map_fst_combine; auto|].
    rewrite map_snd_combine; auto.
  - intros alpha rows Hin Hp Ha. unfold tuning_table.
    rewrite (cv_accuracy_abort tr cv grid alpha rows Hin Hp Ha). reflexivity.
Qed.

(** C8 counterexample: on a validation set where every message is
    predicted [Spam], the loop aborts on [confusion[2,2]]. *)
Lemma tuning_aborts : tuning_table scenario1 cv_all_spam [1%Q] = None.
Proof. vm_compute. reflexivity. Qed.

(** C9.  Empty tokens are not filtered: a training message cleaned to the
    empty string puts the empty word in the vocabulary and in the table,
    with a count of at least 1 for the message's class, and that row is
    used when classifying any message cleaned to the empty string. *)
Theorem empty_token_in_vocabulary (tr : list message) (c : label) (m : text) :
  In (c, m) tr -> normalize m = [] ->
  In [] (vocabulary tr)
  /\ exists r, In r (word_counts tr) /\ word r = []
       /\ 1 <= (match c with Spam => spam_count r | Ham => ham_count r end)
       /\ (forall msg, normalize msg = [] -> In r (present_rows tr msg)).
Proof.
  intros Hin Hn.
  assert (Hcm : In [] (concat (map str_split (class_mes c tr)))).
  { apply in_concat. exists (str_split []). split; [|left; reflexivity].
    apply in_map. unfold class_mes. apply in_map_iff. exists (c, []).
    split; [reflexivity|]. apply filter_In. split.
    - unfold tidy_train. apply in_map_iff. exists (c, m).
      split; [simpl; rewrite Hn; reflexivity | exact Hin].
    - apply label_eqb_eq. reflexivity. }
  assert (Hcv : In [] (build_voc (class_mes c tr))) by (apply unique_In; exact Hcm).
  split; [eapply class_voc_in_vocabulary; exact Hcv|].
  destruct (word_counts_complete tr [])
    as [r [Hr Hw]]; [destruct c; [right | left]; exact Hcv|].
  exists r. split; [exact Hr|]. split; [exact Hw|]. split.
  - destruct (word_counts_rows tr r Hr) as (_ & Hs & Hh).
    destruct c; [rewrite Hh | rewrite Hs]; rewrite class_count_concat, Hw;
      apply count_eq_In; exact Hcm.
  - intros msg Hm. apply filter_In. split; [exact Hr|].
    unfold tokens. rewrite Hm, Hw. reflexivity.
Qed.

Lemma empty_token_in_vocabulary_witness :
  In [] (vocabulary empty_train)
  /\ exists r, In r (word_counts empty_train) /\ word r = []
       /\ 1 <= ham_count r
       /\ (forall msg, normalize msg = [] -> In r (present_rows empty_train msg)).
Proof.
  apply (empty_token_in_vocabulary empty_train Ham (T "123!")).
  - left. reflexivity.
  - reflexivity.
Defined.

(** C10.  The accuracy reads [confusion[1,1]] and [confusion[2,2]]: it is
    defined exactly when both labels occur among the true labels and both
    among the predictions, it then lies in [0, 1], and when all
    predictions are the same label it fails (out of bounds). *)
Theorem accuracy_needs_two_by_two (rows : list (label * label)) :
  (accuracy rows <> None <->
     In Ham (map fst rows) /\ In Spam (map fst rows)
     /\ In Ham (map snd rows) /\ In Spam (map snd rows))
  /\ (forall l, (forall p, In p (map snd rows) -> p = l) -> accuracy rows = None)
  /\ (forall a, accuracy rows = Some a -> (0 <= a /\ a <= 1)%Q).
Proof.
  split; [apply accuracy_defined|]. split; [|apply accuracy_bounds].
  intros l Hl. destruct (accuracy rows) eqn:E; [|reflexivity].
  exfalso. assert (Hd : accuracy rows <> None) by congruence.
  apply accuracy_defined in Hd. destruct Hd as (_ & _ & H3 & H4).
  pose proof (Hl _ H3). pose proof (Hl _ H4). congruence.
Qed.

(* ================================================================= *)
(** ** Further properties of the notebook *)

Lemma cell_diag_matches (rows : list (label * label)) :
  cell rows Ham Ham + cell rows Spam Spam
  = length (filter (fun p => label_eqb (fst p) (snd p)) rows).
Proof. unfold cell. induction rows as [|[[] []] r IH]; simpl; lia. Qed.

(** The accuracy, when defined, is the fraction of rows whose prediction
    is the true label. *)
Theorem accuracy_is_match_fraction (rows : list (label * label)) (a : Q) :
  accuracy rows = Some a ->
  a = (Q_of_nat (length (filter (fun p => label_eqb (fst p) (snd p)) rows))
       / Q_of_nat (length rows))%Q.
Proof. intros H. rewrite (accuracy_value rows a H), cell_diag_matches. reflexivity. Qed.

Lemma accuracy_is_match_fraction_witness :
  accuracy [(Ham, Ham); (Spam, Spam); (Spam, Ham)] = Some (2 # 3)%Q
  /\ (2 # 3)%Q = (Q_of_nat (length (filter (fun p => label_eqb (fst p) (snd p))
                     [(Ham, Ham); (Spam, Spam); (Spam, Ham)]))
                  / Q_of_nat (length [(Ham, Ham); (Spam, Spam); (Spam, Ham)]))%Q.
Proof.
  assert (H : accuracy [(Ham, Ham); (Spam, Spam); (Spam, Ham)] = Some (2 # 3)%Q)
    by (vm_compute; reflexivity).
  split; [exact H | apply (accuracy_is_match_fraction _ _ H)].
Defined.

Lemma unique_aux_NoDup (l seen : list text) :
  NoDup (unique_aux seen l) /\ (forall x, In x (unique_aux seen l) -> ~ In x seen).
Proof.
  revert seen; induction l as [|y r IH]; intros seen; simpl.
  - split; [constructor | tauto].
  - destruct (mem y seen) eqn:Hm; [apply IH|].
    destruct (IH (y :: seen)) as [H1 H2]. apply mem_false in Hm. split.
    + constructor; [|exact H1]. intros Hy. apply (H2 y Hy). left; reflexivity.
    + intros x [<- | Hx]; [exact Hm|]. intros Hs. apply (H2 x Hx). right; exact Hs.
Qed.

Lemma build_voc_NoDup (mes : list text) : NoDup (build_voc mes).
Proof. apply unique_aux_NoDup. Qed.

Lemma word_counts_words (tr : list message) :
  map word (word_counts tr)
  = spam_voc tr ++ filter (fun w => negb (mem w (spam_voc tr))) (ham_voc tr).
Proof.
  unfold word_counts, spam_counts, ham_counts. rewrite map_app, !map_map. simpl.
  f_equal; [apply map_id|].
  induction (ham_voc tr) as [|w r IH]; simpl; [reflexivity|].
  destruct (negb (mem w (spam_voc tr))); simpl; rewrite IH; reflexivity.
Qed.

(** The joined table has exactly one row per vocabulary word, the
    vocabulary is the union of the two class vocabularies, and its size
    lies between the larger class vocabulary and their sum. *)
Theorem word_counts_one_row_per_word (tr : list message) :
  NoDup (map word (word_counts tr))
  /\ (forall w, In w (map word (word_counts tr)) <-> In w (vocabulary tr))
  /\ length (word_counts tr) = n_vocab tr
  /\ (forall w, In w (vocabulary tr) <-> In w (spam_voc tr) \/ In w (ham_voc tr))
  /\ max (n_spam_voc tr) (n_ham_voc tr) <= n_vocab tr <= n_spam_voc tr + n_ham_voc tr.
Proof.
  assert (Hunion : forall w, In w (vocabulary tr) <-> In w (spam_voc tr) \/ In w (ham_voc tr)).
  { intros w. split; [apply vocabulary_in_class_voc|].
    intros [H | H]; eapply class_voc_in_vocabulary; exact H. }
  assert (Hnd : NoDup (map word (word_counts tr))).
  { rewrite word_counts_words. apply NoDup_app.
    - apply build_voc_NoDup.
    - apply NoDup_filter, build_voc_NoDup.
    - intros w H1 H2. apply filter_In in H2. destruct H2 as [_ H2].
      apply negb_true_iff, mem_false in H2. contradiction. }
  assert (Hset : forall w, In w (map word (word_counts tr)) <-> In w (vocabulary tr)).
  { intros w. rewrite Hunion, word_counts_words, in_app_iff, filter_In, negb_true_iff, mem_false.
    split; [intros [H | [H _]]; auto|].
    intros [H | H]; [left; exact H|].
    destruct (In_dec (list_eq_dec ascii_dec) w (spam_voc tr)); [left | right]; auto. }
  assert (Hlen : length (word_counts tr) = n_vocab tr).
  { rewrite <- (length_map word). unfold n_vocab. apply Nat.le_antisymm.
    - apply NoDup_incl_length; [exact Hnd|]. intros w; apply Hset.
    - apply NoDup_incl_length; [apply build_voc_NoDup|]. intros w; apply Hset. }
  split; [exact Hnd|]. split; [exact Hset|]. split; [exact Hlen|]. split; [exact Hunion|].
  split.
  - apply Nat.max_lub; unfold n_vocab; apply NoDup_incl_length;
      try apply build_voc_NoDup; intros w Hw; apply Hunion; auto.
  - rewrite <- Hlen, <- (length_map word), word_counts_words, length_app.
    unfold n_spam_voc, n_ham_voc. pose proof (filter_length_le
      (fun w => negb (mem w (spam_voc tr))) (ham_voc tr)). lia.
Qed.








(* ================================================================= *)
(** ** The expression evaluator *)

Lemma py_split_good (l cur : text) :
  Forall (fun c => py_is_space c = false) cur -> Forall tok_good (py_split cur l).
Proof.
  revert cur; induction l as [|c r IH]; intros cur Hc; simpl.
  - destruct cur as [|x xs]; constructor; [|constructor].
    split; [|apply Forall_rev; exact Hc].
    intros H. apply (f_equal (@length ascii)) in H. rewrite length_rev in H. discriminate.
  - destruct (py_is_space c) eqn:Hs.
    + destruct cur as [|x xs]; [apply IH; constructor|].
      constructor; [|apply IH; constructor].
      split; [|apply Forall_rev; exact Hc].
      intros H. apply (f_equal (@length ascii)) in H. rewrite length_rev in H. discriminate.
    + apply IH. constructor; assumption.
Qed.

Lemma tokenize_good (s : text) : Forall tok_good (tokenize s).
Proof. apply py_split_good. constructor. Qed.

Lemma py_split_word (w l cur : text) :
  Forall (fun c => py_is_space c = false) w -> py_split cur (w ++ l) = py_split (rev w ++ cur) l.
Proof.
  revert cur; induction w as [|c w IH]; intros cur Hw; simpl; [reflexivity|].
  inversion Hw; subst. rewrite H1, IH by assumption. rewrite <- app_assoc. reflexivity.
Qed.

Lemma py_split_join (ts : list text) :
  Forall tok_good ts -> py_split [] (join_space ts) = ts.
Proof.
  induction ts as [|w ts IH]; intros H; [reflexivity|].
  inversion H as [|? ? [Hne Hw] Hts]; subst.
  assert (Hr : rev w <> []).
  { intros E. apply Hne. rewrite <- (rev_involutive w), E. reflexivity. }
  destruct ts as [|w' ts'].
  - simpl. rewrite <- (app_nil_r w) at 1. rewrite py_split_word by exact Hw.
    rewrite app_nil_r. simpl. destruct (rev w) eqn:E; [contradiction|].
    rewrite <- E, rev_involutive. reflexivity.
  - change (join_space (w :: w' :: ts')) with (w ++ space :: join_space (w' :: ts')).
    rewrite py_split_word by exact Hw. rewrite app_nil_r. simpl.
    rewrite <- (IH Hts). destruct (rev w) eqn:E; [contradiction|].
    rewrite <- E, rev_involutive. reflexivity.
Qed.

Lemma infix_loop_app (st : list text * list text) (a b : list text) :
  infix_loop st (a ++ b)
  = match infix_loop st a with None => None | Some st' => infix_loop st' b end.
Proof.
  revert st; induction a as [|t a IH]; intros st; simpl; [reflexivity|].
  destruct (infix_step st t); [apply IH | reflexivity].
Qed.

Lemma close_paren_Forall (P : text -> Prop) (s pf s' pf' : list text) :
  Forall P s -> Forall P pf -> process_closing_parenthesis s pf = Some (s', pf') ->
  Forall P s' /\ Forall P pf'.
Proof.
  revert pf; induction s as [|t r IH]; intros pf Hs Hpf H;
    cbn [process_closing_parenthesis] in H; [discriminate|].
  inversion Hs; subst.
  destruct (tok_eqb t (T "(")).
  - injection H as <- <-. auto.
  - apply (IH (pf ++ [t])); auto. apply Forall_app; auto.
Qed.

Lemma pop_operators_Forall (P : text -> Prop) (s pf : list text) (p : nat) :
  Forall P s -> Forall P pf ->
  Forall P (fst (pop_operators s pf p)) /\ Forall P (snd (pop_operators s pf p)).
Proof.
  revert pf; induction s as [|t r IH]; intros pf Hs Hpf; cbn [pop_operators]; [auto|].
  inversion Hs; subst.
  destruct (precedence t) as [q|]; [|simpl; auto].
  destruct (p <=? q)%nat; [|simpl; auto].
  apply IH; auto. apply Forall_app; auto.
Qed.

(** Every token the algorithm handles satisfies [P] when the input tokens
    and ["("] do. *)
Lemma infix_loop_Forall (P : text -> Prop) (toks s pf s' pf' : list text) :
  P (T "(") -> Forall P toks -> Forall P s -> Forall P pf ->
  infix_loop (s, pf) toks = Some (s', pf') -> Forall P s' /\ Forall P pf'.
Proof.
  intros Hp. revert s pf; induction toks as [|t r IH]; intros s pf Ht Hs Hpf H;
    cbn [infix_loop] in H.
  - injection H as <- <-. auto.
  - inversion Ht; subst. unfold infix_step in H.
    destruct (tok_eqb t (T "(")).
    + apply (IH (process_opening_parenthesis s) pf); auto. constructor; auto.
    + destruct (tok_eqb t (T ")")).
      * destruct (process_closing_parenthesis s pf) as [[s1 pf1]|] eqn:E; [|discriminate].
        destruct (close_paren_Forall P s pf s1 pf1 Hs Hpf E).
        apply (IH s1 pf1); auto.
      * destruct (precedence t) as [q|].
        -- unfold process_operator in H.
           destruct (pop_operators_Forall P s pf q Hs Hpf) as [Hq1 Hq2].
           destruct (pop_operators s pf q) as [s1 pf1]. simpl in Hq1, Hq2.
           apply (IH (push t s1) pf1); auto.
        -- apply (IH s (process_number pf t)); auto.
           unfold process_number. apply Forall_app; auto.
Qed.

Lemma shunting_yard_good (toks out : list text) :
  Forall tok_good toks -> shunting_yard toks = Some out -> Forall tok_good out.
Proof.
  unfold shunting_yard. intros Ht H.
  destruct (infix_loop ([], []) toks) as [[s pf]|] eqn:E; [|discriminate].
  injection H as <-.
  assert (Hp : tok_good (T "(")) by (split; [discriminate | repeat constructor]).
  destruct (infix_loop_Forall tok_good toks [] [] s pf Hp Ht (Forall_nil _) (Forall_nil _) E).
  apply Forall_app; auto.
Qed.

Lemma tokenize_shunting_output (toks out : list text) :
  Forall tok_good toks -> shunting_yard toks = Some out -> tokenize (join_space out) = out.
Proof.
  intros Ht H. unfold tokenize. apply py_split_join. exact (shunting_yard_good _ _ Ht H).
Qed.

Lemma evaluate_tokens (num : Type) (to_float : text -> option num)
  (plus minus times divide power : num -> num -> option num) (expression : text) :
  evaluate num to_float plus minus times divide power expression
  = match shunting_yard (tokenize expression) with
    | None => None
    | Some toks => evaluate_postfix_tokens num to_float plus minus times divide power toks
    end.
Proof.
  unfold evaluate, infix_to_postfix.
  destruct (shunting_yard (tokenize expression)) as [out|] eqn:E; [|reflexivity].
  unfold evaluate_postfix. rewrite (tokenize_shunting_output _ _ (tokenize_good expression) E).
  reflexivity.
Qed.

(** [evaluate] re-tokenizes the joined postfix string: the round trip
    [tokenize(" ".join(postfix))] gives back the postfix token list, so
    [evaluate] evaluates exactly the token list the shunting-yard loop
    builds. *)
Theorem evaluate_postfix_roundtrip (num : Type) (to_float : text -> option num)
  (plus minus times divide power : num -> num -> option num) (expression : text) :
  (forall postfix, infix_to_postfix expression = Some postfix ->
     shunting_yard (tokenize expression) = Some (tokenize postfix))
  /\ evaluate num to_float plus minus times divide power expression
     = match shunting_yard (tokenize expression) with
       | None => None
       | Some toks => evaluate_postfix_tokens num to_float plus minus times divide power toks
       end.
Proof.
  split; [|apply evaluate_tokens].
  unfold infix_to_postfix. intros postfix H.
  destruct (shunting_yard (tokenize expression)) as [out|] eqn:E; [|discriminate].
  injection H as <-. rewrite (tokenize_shunting_output _ _ (tokenize_good expression) E).
  reflexivity.
Qed.

Lemma tok_eqb_sym (a b : text) : tok_eqb a b = tok_eqb b a.
Proof. apply eq_true_iff_eq. rewrite !tok_eqb_eq. split; intros; subst; reflexivity. Qed.

Lemma count_eq_cons (t : text) (r : list text) (w : text) :
  count_eq (t :: r) w = ((if tok_eqb t w then 1 else 0) + count_eq r w)%nat.
Proof. unfold count_eq. simpl. rewrite tok_eqb_sym. destruct (tok_eqb t w); reflexivity. Qed.

Lemma precedence_not_paren (t : text) (p : nat) :
  precedence t = Some p -> tok_eqb t (T "(") = false /\ tok_eqb t (T ")") = false.
Proof.
  intros H. split.
  - destruct (tok_eqb t (T "(")) eqn:E; [|reflexivity].
    apply tok_eqb_eq in E. subst. vm_compute in H. discriminate.
  - destruct (tok_eqb t (T ")")) eqn:E; [|reflexivity].
    apply tok_eqb_eq in E. subst. vm_compute in H. discriminate.
Qed.

Lemma close_paren_operands (s pf s' pf' : list text) :
  Forall (fun t => is_operand t = false) s ->
  process_closing_parenthesis s pf = Some (s', pf') ->
  Forall (fun t => is_operand t = false) s' /\ filter is_operand pf' = filter is_operand pf.
Proof.
  revert pf; induction s as [|t r IH]; intros pf Hs H;
    cbn [process_closing_parenthesis] in H; [discriminate|].
  apply Forall_cons_iff in Hs as [Ht Hr].
  destruct (tok_eqb t (T "(")).
  - injection H as <- <-. auto.
  - destruct (IH (pf ++ [t]) Hr H) as [H1 H2]. split; [exact H1|].
    rewrite H2, filter_app. simpl. rewrite Ht. apply app_nil_r.
Qed.

Lemma pop_operators_operands (s pf : list text) (p : nat) :
  Forall (fun t => is_operand t = false) s ->
  Forall (fun t => is_operand t = false) (fst (pop_operators s pf p))
  /\ filter is_operand (snd (pop_operators s pf p)) = filter is_operand pf.
Proof.
  revert pf; induction s as [|t r IH]; intros pf Hs; cbn [pop_operators]; [auto|].
  pose proof Hs as Hs'. apply Forall_cons_iff in Hs' as [Ht Hr].
  destruct (precedence t) as [q|]; [|simpl; auto].
  destruct (p <=? q)%nat; [|simpl; auto].
  destruct (IH (pf ++ [t]) Hr) as [H1 H2]. split; [exact H1|].
  rewrite H2, filter_app. simpl. rewrite Ht. apply app_nil_r.
Qed.

Lemma infix_loop_operands (toks s pf s' pf' : list text) :
  Forall (fun t => is_operand t = false) s ->
  infix_loop (s, pf) toks = Some (s', pf') ->
  Forall (fun t => is_operand t = false) s'
  /\ filter is_operand pf' = filter is_operand pf ++ filter is_operand toks.
Proof.
  revert s pf; induction toks as [|t r IH]; intros s pf Hs H; cbn [infix_loop] in H.
  - injection H as <- <-. rewrite app_nil_r. auto.
  - unfold infix_step in H.
    destruct (tok_eqb t (T "(")) eqn:E1.
    + assert (Ht : is_operand t = false) by (unfold is_operand; rewrite E1; reflexivity).
      destruct (IH _ _ (Forall_cons _ (eq_refl : is_operand (T "(") = false) Hs) H) as [H1 H2].
      split; [exact H1|]. rewrite H2. simpl. rewrite Ht. reflexivity.
    + destruct (tok_eqb t (T ")")) eqn:E2.
      * assert (Ht : is_operand t = false) by (unfold is_operand; rewrite E1, E2; reflexivity).
        destruct (process_closing_parenthesis s pf) as [[s1 pf1]|] eqn:E; [|discriminate].
        destruct (close_paren_operands s pf s1 pf1 Hs E) as [Hs1 Hpf1].
        destruct (IH _ _ Hs1 H) as [H1 H2]. split; [exact H1|].
        rewrite H2, Hpf1. simpl. rewrite Ht. reflexivity.
      * destruct (precedence t) as [q|] eqn:Ep.
        -- assert (Ht : is_operand t = false) by (unfold is_operand; rewrite E1, E2, Ep; reflexivity).
           unfold process_operator in H.
           destruct (pop_operators_operands s pf q Hs) as [Hq1 Hq2].
           destruct (pop_operators s pf q) as [s1 pf1]. simpl in Hq1, Hq2.
           destruct (IH (push t s1) pf1 (Forall_cons _ Ht Hq1) H) as [H1 H2].
           split; [exact H1|]. rewrite H2, Hq2. simpl. rewrite Ht. reflexivity.
        -- assert (Ht : is_operand t = true) by (unfold is_operand; rewrite E1, E2, Ep; reflexivity).
           destruct (IH s (process_number pf t) Hs H) as [H1 H2].
           split; [exact H1|]. rewrite H2. unfold process_number.
           rewrite filter_app. simpl. rewrite Ht, <- app_assoc. reflexivity.
Qed.

(** A closing parenthesis never reaches the stack or the postfix list. *)
Lemma infix_loop_no_close (toks s pf s' pf' : list text) :
  Forall (fun t => tok_eqb t (T ")") = false) s ->
  Forall (fun t => tok_eqb t (T ")") = false) pf ->
  infix_loop (s, pf) toks = Some (s', pf') ->
  Forall (fun t => tok_eqb t (T ")") = false) s'
  /\ Forall (fun t => tok_eqb t (T ")") = false) pf'.
Proof.
  revert s pf; induction toks as [|t r IH]; intros s pf Hs Hpf H; cbn [infix_loop] in H.
  - injection H as <- <-. auto.
  - unfold infix_step in H.
    destruct (tok_eqb t (T "(")) eqn:E1.
    + apply (IH _ _ (Forall_cons _ (eq_refl : tok_eqb (T "(") (T ")") = false) Hs) Hpf H).
    + destruct (tok_eqb t (T ")")) eqn:E2.
      * destruct (process_closing_parenthesis s pf) as [[s1 pf1]|] eqn:E; [|discriminate].
        destruct (close_paren_Forall _ s pf s1 pf1 Hs Hpf E) as [Hs1 Hpf1].
        exact (IH _ _ Hs1 Hpf1 H).
      * destruct (precedence t) as [q|] eqn:Ep.
        -- unfold process_operator in H.
           destruct (pop_operators_Forall _ s pf q Hs Hpf) as [Hq1 Hq2].
           destruct (pop_operators s pf q) as [s1 pf1]. simpl in Hq1, Hq2.
           exact (IH (push t s1) pf1 (Forall_cons _ E2 Hq1) Hq2 H).
        -- apply (IH s (process_number pf t) Hs); [|exact H].
           unfold process_number. apply Forall_app. split; [exact Hpf | constructor; auto].
Qed.

(** [infix_to_postfix] keeps the operands (numbers) in their input order,
    and no closing parenthesis reaches its output. *)
Theorem shunting_yard_operand_order (toks out : list text) :
  shunting_yard toks = Some out ->
  filter is_operand out = filter is_operand toks
  /\ ~ In (T ")") out.
Proof.
  unfold shunting_yard. intros H.
  destruct (infix_loop ([], []) toks) as [[s pf]|] eqn:E; [|discriminate].
  injection H as <-.
  destruct (infix_loop_operands toks [] [] s pf (Forall_nil _) E) as [Hs Hpf].
  destruct (infix_loop_no_close toks [] [] s pf (Forall_nil _) (Forall_nil _) E) as [Ns Npf].
  split.
  - rewrite filter_app, Hpf. simpl.
    assert (Hf : filter is_operand s = []).
    { clear -Hs. induction Hs as [|x l Hx _ IHl]; [reflexivity|]. simpl. rewrite Hx. exact IHl. }
    rewrite Hf, app_nil_r. reflexivity.
  - intros Hin. apply in_app_or in Hin.
    assert (Hall : Forall (fun t => tok_eqb t (T ")") = false) (pf ++ s)) by (apply Forall_app; auto).
    rewrite Forall_forall in Hall. specialize (Hall (T ")")).
    assert (Hi : In (T ")") (pf ++ s)) by (apply in_or_app; exact Hin).
    specialize (Hall Hi). vm_compute in Hall. discriminate.
Qed.

Lemma tok_eqb_refl (a : text) : tok_eqb a a = true.
Proof. apply tok_eqb_eq. reflexivity. Qed.

Lemma open_ne_close : tok_eqb (T "(") (T ")") = false.
Proof. reflexivity. Qed.

Lemma close_ne_open : tok_eqb (T ")") (T "(") = false.
Proof. reflexivity. Qed.

Lemma count_eq_last (l : list text) (t w : text) :
  count_eq (l ++ [t]) w = (count_eq l w + if tok_eqb t w then 1 else 0)%nat.
Proof. rewrite count_eq_app, count_eq_cons. unfold count_eq at 2. simpl. lia. Qed.

Lemma close_paren_count (s pf s' pf' : list text) :
  process_closing_parenthesis s pf = Some (s', pf') ->
  count_eq s (T "(") = S (count_eq s' (T "(")) /\ count_eq pf' (T "(") = count_eq pf (T "(").
Proof.
  revert pf; induction s as [|t r IH]; intros pf H;
    cbn [process_closing_parenthesis] in H; [discriminate|].
  rewrite count_eq_cons.
  destruct (tok_eqb t (T "(")) eqn:E.
  - injection H as <- <-. auto.
  - destruct (IH _ H) as [H1 H2]. rewrite count_eq_last, E in H2. split; lia.
Qed.

Lemma close_paren_none (s pf : list text) :
  count_eq s (T "(") = 0 -> process_closing_parenthesis s pf = None.
Proof.
  revert pf; induction s as [|t r IH]; intros pf H; cbn [process_closing_parenthesis]; [reflexivity|].
  rewrite count_eq_cons in H. destruct (tok_eqb t (T "(")); [discriminate|].
  apply IH. exact H.
Qed.

Lemma pop_operators_count (s pf : list text) (p : nat) :
  count_eq (fst (pop_operators s pf p)) (T "(") = count_eq s (T "(")
  /\ count_eq (snd (pop_operators s pf p)) (T "(") = count_eq pf (T "(").
Proof.
  revert pf; induction s as [|t r IH]; intros pf; cbn [pop_operators]; [auto|].
  destruct (precedence t) as [q|] eqn:Ep; [|simpl; auto].
  destruct (p <=? q)%nat; [|simpl; auto].
  destruct (precedence_not_paren t q Ep) as [Ho _].
  destruct (IH (pf ++ [t])) as [H1 H2].
  rewrite count_eq_cons, Ho, H1. rewrite H2, count_eq_last, Ho. split; lia.
Qed.

(** Parenthesis balance along the loop: every ["("] read is pushed, every
    [")"] read removes one ["("] from the stack, and no ["("] is ever
    appended to the postfix list. *)
Lemma infix_loop_count (toks s pf s' pf' : list text) :
  infix_loop (s, pf) toks = Some (s', pf') ->
  (count_eq s' (T "(") + count_eq toks (T ")") = count_eq s (T "(") + count_eq toks (T "("))%nat
  /\ count_eq pf' (T "(") = count_eq pf (T "(").
Proof.
  revert s pf; induction toks as [|t r IH]; intros s pf H; cbn [infix_loop] in H.
  - injection H as <- <-. unfold count_eq. simpl. lia.
  - unfold infix_step in H. rewrite !count_eq_cons.
    destruct (tok_eqb t (T "(")) eqn:E1.
    + apply tok_eqb_eq in E1. subst t.
      destruct (IH _ _ H) as [H1 H2]. rewrite H2. unfold process_opening_parenthesis, push in H1.
      rewrite count_eq_cons, tok_eqb_refl in H1. rewrite open_ne_close. split; lia.
    + destruct (tok_eqb t (T ")")) eqn:E2.
      * destruct (process_closing_parenthesis s pf) as [[s1 pf1]|] eqn:E; [|discriminate].
        destruct (close_paren_count s pf s1 pf1 E) as [Hc1 Hc2].
        destruct (IH _ _ H) as [H1 H2]. split; lia.
      * destruct (precedence t) as [q|] eqn:Ep.
        -- unfold process_operator in H.
           destruct (pop_operators_count s pf q) as [Hq1 Hq2].
           destruct (pop_operators s pf q) as [s1 pf1]. cbn [fst snd] in Hq1, Hq2.
           destruct (IH _ _ H) as [H1 H2]. unfold push in H1.
           rewrite count_eq_cons, E1 in H1. split; lia.
        -- destruct (IH _ _ H) as [H1 H2]. unfold process_number in H2.
           rewrite count_eq_last, E1 in H2. split; lia.
Qed.

(** A closing parenthesis with no unmatched opening one before it: the
    [stack.peek()] loop of [process_closing_parenthesis] runs off the
    empty stack, and [infix_to_postfix] raises. *)
Theorem unmatched_close_paren (p q : list text) :
  (count_eq p (T "(") <= count_eq p (T ")"))%nat ->
  shunting_yard (p ++ T ")" :: q) = None.
Proof.
  intros Hle. unfold shunting_yard. rewrite infix_loop_app.
  destruct (infix_loop ([], []) p) as [[s pf]|] eqn:E; [|reflexivity].
  destruct (infix_loop_count p [] [] s pf E) as [H1 _].
  change (count_eq [] (T "(")) with 0%nat in H1.
  cbn [infix_loop]. unfold infix_step. rewrite close_ne_open, tok_eqb_refl.
  rewrite close_paren_none by lia. reflexivity.
Qed.

Lemma count_eq_pos_In (l : list text) (w : text) : (1 <= count_eq l w)%nat -> In w l.
Proof.
  intros H. destruct (in_dec (list_eq_dec ascii_dec) w l) as [Hi|Hi]; [exact Hi|].
  rewrite (count_eq_not_In l w Hi) in H. lia.
Qed.

Lemma shunting_yard_open_count (toks out : list text) :
  shunting_yard toks = Some out ->
  (count_eq out (T "(") + count_eq toks (T ")") = count_eq toks (T "("))%nat.
Proof.
  unfold shunting_yard. intros H.
  destruct (infix_loop ([], []) toks) as [[s pf]|] eqn:E; [|discriminate].
  injection H as <-.
  destruct (infix_loop_count toks [] [] s pf E) as [H1 H2].
  change (count_eq [] (T "(")) with 0%nat in H1, H2.
  rewrite count_eq_app. lia.
Qed.

Lemma is_operand_not_operator (t : text) : is_operand t = true -> postfix_operator t = false.
Proof.
  unfold is_operand, postfix_operator, precedence. intros H.
  destruct (tok_eqb t (T "+")), (tok_eqb t (T "-")), (tok_eqb t (T "*")),
    (tok_eqb t (T "/")), (tok_eqb t (T "**")); simpl in *; try reflexivity;
    rewrite !andb_false_r in H; discriminate.
Qed.

Section PostfixFacts.

Variable num : Type.
Variable to_float : text -> option num.
Variables (plus minus times divide power : num -> num -> option num).

Local Abbreviation step := (postfix_step num to_float plus minus times divide power).
Local Abbreviation loop := (postfix_loop num to_float plus minus times divide power).
Local Abbreviation eval_tokens := (evaluate_postfix_tokens num to_float plus minus times divide power).
Local Abbreviation eval := (evaluate num to_float plus minus times divide power).

Lemma postfix_step_operand (s : list num) (t : text) :
  postfix_operator t = false ->
  step s t = match to_float t with None => None | Some x => Some (push x s) end.
Proof.
  unfold postfix_operator, postfix_step. intros H.
  destruct (tok_eqb t (T "+")), (tok_eqb t (T "-")), (tok_eqb t (T "*")),
    (tok_eqb t (T "/")), (tok_eqb t (T "**")); try discriminate H; reflexivity.
Qed.

Lemma postfix_step_operator (s : list num) (t : text) :
  postfix_operator t = true -> (length s < 2)%nat -> step s t = None.
Proof.
  unfold postfix_operator, postfix_step. intros H Hl.
  assert (Hb : forall op, process_binop num op s = None).
  { intros op. unfold process_binop, pop.
    destruct s as [|x [|y r]]; [reflexivity | reflexivity | simpl in Hl; lia]. }
  destruct (tok_eqb t (T "+")), (tok_eqb t (T "-")), (tok_eqb t (T "*")),
    (tok_eqb t (T "/")), (tok_eqb t (T "**")); try discriminate H; apply Hb.
Qed.

Lemma postfix_loop_bad_token (x : text) (toks : list text) (s : list num) :
  In x toks -> postfix_operator x = false -> to_float x = None -> loop s toks = None.
Proof.
  intros Hin Ho Hf. revert s; induction toks as [|t r IH]; intros s; [destruct Hin|].
  cbn [postfix_loop]. destruct Hin as [<-|Hin].
  - rewrite postfix_step_operand, Hf by exact Ho. reflexivity.
  - destruct (step s t); [apply IH; exact Hin | reflexivity].
Qed.

Lemma postfix_loop_app (s : list num) (a b : list text) :
  loop s (a ++ b) = match loop s a with None => None | Some s' => loop s' b end.
Proof.
  revert s; induction a as [|t a IH]; intros s; cbn [postfix_loop app]; [reflexivity|].
  destruct (step s t); [apply IH | reflexivity].
Qed.

(** More opening than closing parentheses: a ["("] is left on the stack,
    [infix_to_postfix] flushes it into the postfix expression, and
    [evaluate_postfix] fails on it ([float("(")] raises ValueError). *)
Theorem unmatched_open_paren (expression : text) :
  to_float (T "(") = None ->
  (count_eq (tokenize expression) (T ")") < count_eq (tokenize expression) (T "("))%nat ->
  eval expression = None.
Proof.
  intros Hf Hlt. rewrite evaluate_tokens.
  destruct (shunting_yard (tokenize expression)) as [out|] eqn:E; [|reflexivity].
  pose proof (shunting_yard_open_count _ _ E) as Hc.
  assert (Hin : In (T "(") out) by (apply count_eq_pos_In; lia).
  unfold evaluate_postfix_tokens.
  rewrite (postfix_loop_bad_token (T "(") out [] Hin eq_refl Hf). reflexivity.
Qed.

(** An operator with fewer than two numbers on the stack: the second
    [stack.pop()] of [process_*] fails, and so does the evaluation. *)
Theorem postfix_operator_underflow (s : list num) (o : text) (toks : list text) :
  postfix_operator o = true -> (length s < 2)%nat -> loop s (o :: toks) = None.
Proof.
  intros Ho Hl. cbn [postfix_loop]. rewrite postfix_step_operator by assumption. reflexivity.
Qed.

(** [evaluate_postfix] returns the top of the final stack: whatever is
    below it is dropped silently, so a trailing number is the result of
    the whole evaluation. *)
Theorem evaluate_postfix_last_number (toks : list text) (s : list num) (n : text) (v : num) :
  loop [] toks = Some s -> postfix_operator n = false -> to_float n = Some v ->
  eval_tokens (toks ++ [n]) = Some v.
Proof.
  intros Hl Ho Hf. unfold evaluate_postfix_tokens.
  rewrite postfix_loop_app, Hl. cbn [postfix_loop].
  rewrite postfix_step_operand, Hf by exact Ho. reflexivity.
Qed.

(** An expression with no token (empty or blank) has no result: the
    final [stack.pop()] runs on the empty stack. *)
Theorem evaluate_blank (expression : text) :
  tokenize expression = [] -> eval expression = None.
Proof. intros H. rewrite evaluate_tokens, H. reflexivity. Qed.

End PostfixFacts.

(** Two operators between three numbers: the first operator is flushed
    before the second is pushed exactly when its precedence is at least
    the second's ([precedence(stack.peek()) >= precedence(operator)]).
    Operators of equal precedence are therefore grouped from the left,
    ["**"] included. *)
Lemma two_operators_order (a b c o1 o2 : text) (p1 p2 : nat) :
  is_operand a = true -> is_operand b = true -> is_operand c = true ->
  precedence o1 = Some p1 -> precedence o2 = Some p2 ->
  shunting_yard [a; o1; b; o2; c]
  = Some (if (p2 <=? p1)%nat then [a; b; o1; c; o2] else [a; b; c; o2; o1]).
Proof.
  intros Ha Hb Hc H1 H2.
  assert (Op : forall t, is_operand t = true ->
            tok_eqb t (T "(") = false /\ tok_eqb t (T ")") = false /\ precedence t = None).
  { intros t Ht. unfold is_operand in Ht.
    destruct (tok_eqb t (T "(")), (tok_eqb t (T ")")), (precedence t); simpl in Ht;
      try discriminate; auto. }
  destruct (Op a Ha) as (Ea1 & Ea2 & Ea3), (Op b Hb) as (Eb1 & Eb2 & Eb3),
    (Op c Hc) as (Ec1 & Ec2 & Ec3).
  destruct (precedence_not_paren o1 p1 H1) as [E11 E12],
    (precedence_not_paren o2 p2 H2) as [E21 E22].
  unfold shunting_yard. cbn [infix_loop]. unfold infix_step.
  rewrite Ea1, Ea2, Ea3. unfold process_number.
  rewrite E11, E12, H1. unfold process_operator. cbn [pop_operators]. unfold push.
  rewrite Eb1, Eb2, Eb3. unfold process_number.
  rewrite E21, E22, H2. cbn [pop_operators]. rewrite H1.
  destruct (p2 <=? p1)%nat; cbn [pop_operators app].
  - rewrite Ec1, Ec2, Ec3. reflexivity.
  - rewrite Ec1, Ec2, Ec3. reflexivity.
Qed.

(** Two operators between three numbers: the first operator is flushed
    before the second is pushed exactly when its precedence is at least
    the second's ([precedence(stack.peek()) >= precedence(operator)]).
    Operators of equal precedence are therefore grouped from the left,
    ["**"] included. *)
Theorem shunting_yard_two_operators (a b c o1 o2 : text) (p1 p2 : nat) :
  is_operand a = true -> is_operand b = true -> is_operand c = true ->
  precedence o1 = Some p1 -> precedence o2 = Some p2 ->
  shunting_yard [a; o1; b; o2; c]
  = Some (if (p2 <=? p1)%nat then [a; b; o1; c; o2] else [a; b; c; o2; o1]).
Proof. apply two_operators_order. Qed.

Lemma postfix_step_power (num : Type) (to_float : text -> option num)
  (plus minus times divide power : num -> num -> option num) (s : list num) :
  postfix_step num to_float plus minus times divide power s (T "**")
  = process_binop num power s.
Proof. reflexivity. Qed.

(** [a ** b ** c] is evaluated as [(a ** b) ** c]: the power operator is
    grouped from the left, unlike Python's own [**]. *)
Theorem evaluate_power_left_assoc (num : Type) (to_float : text -> option num)
  (plus minus times divide power : num -> num -> option num)
  (a b c : text) (x y z w : num) :
  Forall tok_good [a; b; c] ->
  is_operand a = true -> is_operand b = true -> is_operand c = true ->
  to_float a = Some x -> to_float b = Some y -> to_float c = Some z ->
  power x y = Some w ->
  evaluate num to_float plus minus times divide power (join_space [a; T "**"; b; T "**"; c])
  = power w z.
Proof.
  intros Hg Ha Hb Hc Hx Hy Hz Hw.
  rewrite evaluate_tokens. unfold tokenize. rewrite py_split_join.
  2: { inversion Hg as [|? ? Ga Hg1]; inversion Hg1 as [|? ? Gb Hg2]; inversion Hg2 as [|? ? Gc _].
       assert (Gp : tok_good (T "**")) by (split; [discriminate | repeat constructor]).
       repeat (apply Forall_cons; [assumption|]). apply Forall_nil. }
  rewrite (two_operators_order a b c (T "**") (T "**") 3 3 Ha Hb Hc eq_refl eq_refl).
  cbn [Nat.leb]. unfold evaluate_postfix_tokens. cbn [postfix_loop].
  rewrite postfix_step_operand, Hx by (apply is_operand_not_operator; exact Ha).
  rewrite postfix_step_operand, Hy by (apply is_operand_not_operator; exact Hb).
  rewrite postfix_step_power. unfold process_binop, pop, push. rewrite Hw.
  rewrite postfix_step_operand, Hz by (apply is_operand_not_operator; exact Hc).
  rewrite postfix_step_power. unfold process_binop, pop, push.
  destruct (power w z); reflexivity.
Qed.

(* ----------------------------------------------------------------- *)
(** Instances at concrete inputs *)

Lemma shunting_yard_operand_order_witness :
  shunting_yard (tokenize (T "4 * ( 1 + 2 )")) = Some (map T ["4"; "1"; "2"; "+"; "*"]%string)
  /\ filter is_operand (map T ["4"; "1"; "2"; "+"; "*"]%string)
     = filter is_operand (tokenize (T "4 * ( 1 + 2 )"))
  /\ ~ In (T ")") (map T ["4"; "1"; "2"; "+"; "*"]%string).
Proof.
  split; [vm_compute; reflexivity|].
  apply shunting_yard_operand_order. vm_compute. reflexivity.
Defined.

Lemma unmatched_close_paren_witness :
  (count_eq [T "1"] (T "(") <= count_eq [T "1"] (T ")"))%nat
  /\ shunting_yard ([T "1"] ++ T ")" :: [T "+"; T "2"]) = None.
Proof.
  split; [vm_compute; lia|].
  apply unmatched_close_paren. vm_compute. lia.
Defined.

Lemma unmatched_open_paren_witness :
  q_of_token (T "(") = None
  /\ (count_eq (tokenize (T "( 1 + 2")) (T ")") < count_eq (tokenize (T "( 1 + 2")) (T "("))%nat
  /\ evaluate Q q_of_token q_plus q_minus q_times q_divide q_power (T "( 1 + 2") = None.
Proof.
  split; [vm_compute; reflexivity|]. split; [vm_compute; lia|].
  apply (unmatched_open_paren Q q_of_token q_plus q_minus q_times q_divide q_power);
    vm_compute; [reflexivity | lia].
Defined.

Lemma postfix_operator_underflow_witness :
  postfix_operator (T "+") = true /\ (length [1%Q] < 2)%nat
  /\ postfix_loop Q q_of_token q_plus q_minus q_times q_divide q_power [1%Q] [T "+"] = None.
Proof.
  split; [reflexivity|]. split; [simpl; lia|].
  apply (postfix_operator_underflow Q q_of_token q_plus q_minus q_times q_divide q_power);
    [reflexivity | simpl; lia].
Defined.

Lemma evaluate_postfix_last_number_witness :
  postfix_loop Q q_of_token q_plus q_minus q_times q_divide q_power [] [T "1"; T "2"]
    = Some [2%Q; 1%Q]
  /\ postfix_operator (T "3") = false /\ q_of_token (T "3") = Some 3%Q
  /\ evaluate_postfix_tokens Q q_of_token q_plus q_minus q_times q_divide q_power
       ([T "1"; T "2"] ++ [T "3"]) = Some 3%Q.
Proof.
  split; [vm_compute; reflexivity|]. split; [reflexivity|]. split; [vm_compute; reflexivity|].
  apply (evaluate_postfix_last_number Q q_of_token q_plus q_minus q_times q_divide q_power
           [T "1"; T "2"] [2%Q; 1%Q]); vm_compute; reflexivity.
Defined.

Lemma evaluate_blank_witness :
  tokenize (T "  ") = []
  /\ evaluate Q q_of_token q_plus q_minus q_times q_divide q_power (T "  ") = None.
Proof.
  split; [vm_compute; reflexivity|].
  apply (evaluate_blank Q q_of_token q_plus q_minus q_times q_divide q_power).
  vm_compute. reflexivity.
Defined.

Lemma shunting_yard_two_operators_witness :
  is_operand (T "1") = true /\ is_operand (T "2") = true /\ is_operand (T "3") = true
  /\ precedence (T "-") = Some 1%nat
  /\ shunting_yard [T "1"; T "-"; T "2"; T "-"; T "3"]
     = Some [T "1"; T "2"; T "-"; T "3"; T "-"].
Proof.
  do 4 (split; [vm_compute; reflexivity|]).
  apply (shunting_yard_two_operators (T "1") (T "2") (T "3") (T "-") (T "-") 1 1);
    vm_compute; reflexivity.
Defined.

Lemma evaluate_power_left_assoc_witness :
  Forall tok_good [T "2"; T "3"; T "2"]
  /\ q_power 2%Q 3%Q = Some 8%Q
  /\ evaluate Q q_of_token q_plus q_minus q_times q_divide q_power
       (join_space [T "2"; T "**"; T "3"; T "**"; T "2"]) = Some 64%Q.
Proof.
  assert (Hg : Forall tok_good [T "2"; T "3"; T "2"])
    by (repeat (apply Forall_cons; [split; [discriminate | repeat constructor]|]); apply Forall_nil).
  split; [exact Hg|]. split; [vm_compute; reflexivity|].
  rewrite (evaluate_power_left_assoc Q q_of_token q_plus q_minus q_times q_divide q_power
             (T "2") (T "3") (T "2") 2%Q 3%Q 2%Q 8%Q Hg); vm_compute; reflexivity.
Defined.

(* ----------------------------------------------------------------- *)
(** ** The cross-validation / test split *)

Lemma Qfloor_unique (q : Q) (z : Z) :
  (inject_Z z <= q)%Q -> (q < inject_Z (z + 1))%Q -> Qfloor q = z.
Proof.
  intros H1 H2.
  pose proof (Qfloor_le q) as F1. pose proof (Qlt_floor q) as F2.
  assert (A : (z < Qfloor q + 1)%Z) by (rewrite Zlt_Qlt; eapply Qle_lt_trans; eauto).
  assert (B : (Qfloor q < z + 1)%Z) by (rewrite Zlt_Qlt; eapply Qle_lt_trans; eauto).
  lia.
Qed.

Lemma Qfloor_plus_one (q : Q) : Qfloor (q + 1) = (Qfloor q + 1)%Z.
Proof.
  apply Qfloor_unique.
  - pose proof (Qfloor_le q). rewrite inject_Z_plus. change (inject_Z 1) with 1%Q. lra.
  - pose proof (Qlt_floor q). rewrite !inject_Z_plus. change (inject_Z 1) with 1%Q.
    rewrite inject_Z_plus in H. change (inject_Z 1) with 1%Q in H. lra.
Qed.

Lemma nth_error_skipn_cons {A} (v : list A) (i : nat) :
  i < length v -> exists x, nth_error v i = Some x /\ skipn i v = x :: skipn (S i) v.
Proof.
  revert i; induction v as [|y v IH]; intros i H; simpl in H; [lia|].
  destruct i as [|i]; [exists y; auto|].
  destruct (IH i ltac:(lia)) as [x [H1 H2]]. exists x. simpl. auto.
Qed.

Lemma r_subset_seq {A} (v : list A) (from : Q) (i n : nat) :
  Qfloor from = Z.of_nat (S i) -> S i + n <= length v ->
  r_subset v (r_seq from 1 n) = map Some (firstn (S n) (skipn i v)).
Proof.
  revert from i; induction n as [|n IH]; intros from i Hf Hl.
  - destruct (nth_error_skipn_cons v i ltac:(lia)) as [x [H1 H2]].
    unfold r_subset. simpl. rewrite Hf, Znat.Nat2Z.id, H1, H2. reflexivity.
  - destruct (nth_error_skipn_cons v i ltac:(lia)) as [x [H1 H2]].
    change (r_seq from 1 (S n)) with (from :: r_seq (from + 1) 1 n).
    unfold r_subset. cbn [flat_map]. fold (r_subset v (r_seq (from + 1) 1 n)).
    rewrite Hf, Znat.Nat2Z.id, H1, H2.
    rewrite (IH (from + 1)%Q (S i)); [reflexivity | | lia].
    rewrite Qfloor_plus_one, Hf. lia.
Qed.

Lemma half_bounds (m : nat) :
  (inject_Z (Z.of_nat (m / 2)) <= Q_of_nat m / 2
   /\ Q_of_nat m / 2 < inject_Z (Z.of_nat (m / 2)) + 1)%Q.
Proof.
  pose proof (Nat.div_mod m 2 ltac:(lia)) as Hm. pose proof (Nat.mod_upper_bound m 2 ltac:(lia)).
  unfold Q_of_nat. rewrite Hm at 2 3.
  rewrite Znat.Nat2Z.inj_add, Znat.Nat2Z.inj_mul, inject_Z_plus, inject_Z_mult.
  assert (Hb : (0 <= inject_Z (Z.of_nat (m mod 2)) <= 1)%Q).
  { change 0%Q with (inject_Z 0). change 1%Q with (inject_Z 1).
    rewrite <- !Zle_Qle. lia. }
  change (inject_Z (Z.of_nat 2)) with 2%Q.
  assert (E : forall x b, ((2 * x + b) / 2 == x + (1 # 2) * b)%Q) by (intros; field).
  rewrite E. split; lra.
Qed.

(** [remaining_indices[1:(length/2)]] and
    [remaining_indices[((length/2)+1):length]]: with at least two
    remaining indices, the cross-validation set takes the first
    [length %/% 2] of them and the test set the next [length %/% 2]; when
    the number of remaining indices is odd, the last one goes to neither
    set. *)
Theorem cv_test_split_halves {A} (remaining_indices : list A) :
  2 <= length remaining_indices ->
  cv_test_split remaining_indices
  = (map Some (firstn (length remaining_indices / 2) remaining_indices),
     map Some (firstn (length remaining_indices / 2)
                 (skipn (length remaining_indices / 2) remaining_indices))).
Proof.
  intros H2. set (m := length remaining_indices) in *. set (k := m / 2).
  pose proof (Nat.div_mod m 2 ltac:(lia)) as Hm. pose proof (Nat.mod_upper_bound m 2 ltac:(lia)).
  fold k in Hm.
  assert (Hk : 1 <= k) by lia.
  assert (Hkm : 2 * k <= m) by lia.
  destruct (half_bounds m) as [B1 B2]. fold k in B1, B2.
  assert (Hk1 : (1 <= inject_Z (Z.of_nat k))%Q)
    by (change 1%Q with (inject_Z 1); rewrite <- Zle_Qle; lia).
  assert (Hmq : (Q_of_nat m == Q_of_nat m / 2 + Q_of_nat m / 2)%Q) by field.
  assert (F : forall q, (q == Q_of_nat m / 2 - 1)%Q ->
                Z.to_nat (Qfloor q) = k - 1).
  { set (h := (Q_of_nat m / 2)%Q) in *. intros q Hq. rewrite (Qfloor_unique q (Z.of_nat k - 1)); [lia| |].
    - unfold Z.sub. rewrite inject_Z_plus, inject_Z_opp. change (inject_Z 1) with 1%Q. lra.
    - replace (Z.of_nat k - 1 + 1)%Z with (Z.of_nat k) by lia. lra. }
  unfold cv_test_split, r_colon. fold m.
  rewrite !(proj2 (Qle_bool_iff _ _)) by lra.
  rewrite (F (Q_of_nat m / 2 - 1)%Q) by reflexivity.
  rewrite (F (Q_of_nat m - (Q_of_nat m / 2 + 1))%Q) by lra.
  f_equal.
  - rewrite (r_subset_seq remaining_indices 1%Q 0 (k - 1)); [| reflexivity | lia].
    replace (S (k - 1)) with k by lia. reflexivity.
  - rewrite (r_subset_seq remaining_indices (Q_of_nat m / 2 + 1)%Q k (k - 1)); [| | lia].
    + replace (S (k - 1)) with k by lia. reflexivity.
    + rewrite Qfloor_plus_one. rewrite (Qfloor_unique _ (Z.of_nat k)); [lia | lra |].
      rewrite inject_Z_plus. change (inject_Z 1) with 1%Q. lra.
Qed.

Lemma cv_test_split_halves_witness :
  2 <= length [11; 12; 13; 14; 15]
  /\ cv_test_split [11; 12; 13; 14; 15] = ([Some 11; Some 12], [Some 13; Some 14]).
Proof.
  split; [simpl; lia|].
  rewrite (cv_test_split_halves [11; 12; 13; 14; 15]) by (simpl; lia). reflexivity.
Defined.
